(** * DOKVS: the Durable Object key-value store of [src/cfobj.ts]

    A shallow embedding of the class [DOKVS] and proofs about its value
    codec, its expiry policy, its SQL statements and its schema bootstrap.

    Modelling conventions.
    - A JavaScript [number] that the caller supplies (an expiration, a
      cleanup interval, a list limit) is a rational [Q]; [Math.trunc]
      rounds it toward zero to an integer [Z].  NaN, the infinities, the
      sign of zero and rounding of huge doubles are outside the model.
      Sums are exact here and rounded in the code; statements about a sum
      are made for whole numbers within 2^53, where the two agree.
    - Clock readings ([DOKVS.now()]) are integers; the readings taken within
      one operation are the same value [now], passed as an argument.
    - A string is a [string] of 8-bit characters; the ones above 127 stand
      for the code units U+0080..U+00FF.
    - The table [dokvs] is the list of its rows in storage order.  The SQL
      statements are embedded by their meaning on that list.  Keys are
      compared as text, which is what the engine does on the keys it keeps
      as text ([Sql.text_key]); statements that relate two different keys,
      or a key to what [list] returns, are made for such keys.  [#LIST]
      yields its rows in the order of [Sql.index_order], and is given for
      patterns within [Sql.like_pattern_limit]; the general statements on
      [list] depend on no order.
    - A closure handed to [ctx.waitUntil(Promise.resolve().then(..))] is a
      [task]: the list of the steps of its body.  It runs once the method
      that queued it has returned. *)

From Stdlib Require Import ZArith QArith List String Ascii Strings.Byte Bool Lia.
From Stdlib Require Import Permutation.
Import ListNotations.
Local Open Scope string_scope.
Local Open Scope list_scope.
Local Open Scope Z_scope.

(** ** Outcomes of fallible code *)

Inductive error : Type :=
| TypeError (msg : string)
| SqlError (msg : string).

Inductive outcome (A : Type) : Type :=
| Ret (a : A)
| Throw (e : error).
Arguments Ret {A} a.
Arguments Throw {A} e.

(** ** Numbers *)

(** [Math.trunc]: the integer part, rounding toward zero. *)
Definition Math_trunc (q : Q) : Z := Z.quot (Qnum q) (Z.pos (Qden q)).

(** [Math.max] and [Math.min] on two finite numbers. *)
Definition Math_max (a b : Q) : Q := if Qle_bool a b then b else a.
Definition Math_min (a b : Q) : Q := if Qle_bool a b then a else b.

(** [x ?? d] *)
Definition nullish {A : Type} (x : option A) (d : A) : A :=
  match x with Some a => a | None => d end.

(** ** Value codec *)

Module Codec.

(** [KVValue = string | ArrayBuffer] *)
Inductive KVValue : Type :=
| VString (s : string)
| VBuffer (b : list byte).

(** [static #VTYPE = { string: 0, buffer: 1 }] *)
Definition VTYPE_string : Z := 0.
Definition VTYPE_buffer : Z := 1.

Definition hex_digit (d : N) : ascii :=
  ascii_of_N (if (d <? 10)%N then 48 + d else 87 + d)%N.

(** [Number.prototype.toString(16)] on a non-negative integer: the
    hexadecimal digits, lowercase, without leading zeros. *)
Fixpoint toString16_aux (fuel : nat) (n : N) (acc : string) : string :=
  let acc' := String (hex_digit (n mod 16)%N) acc in
  match fuel with
  | O => acc'
  | S fuel' => if (n / 16 =? 0)%N then acc' else toString16_aux fuel' (n / 16)%N acc'
  end.

Definition toString16 (n : N) : string :=
  toString16_aux (N.to_nat (N.log2 n)) n "".

Fixpoint repeat_char (c : ascii) (n : nat) : string :=
  match n with O => "" | S n' => String c (repeat_char c n') end.

(** [s.padStart(len, c)] for a one-character filler. *)
Definition padStart (len : nat) (c : ascii) (s : string) : string :=
  (repeat_char c (len - String.length s) ++ s)%string.

(** [xs.join("")] *)
Definition join (xs : list string) : string :=
  fold_right append "" xs.

(** [#bin2str]:
    [Array.from(bin).map((x) => x.toString(16).padStart(2, "0")).join("")] *)
Definition bin2str (bin : list byte) : string :=
  join (map (fun x => padStart 2 "0"%char (toString16 (Byte.to_N x))) bin).

(** A line terminator, which [.] in a regular expression does not match:
    LF and CR (U+2028 and U+2029 are not 8-bit characters). *)
Definition is_line_terminator (c : ascii) : bool :=
  let n := N_of_ascii c in ((n =? 10) || (n =? 13))%N.

(** [str.match(/.{2}/g)]: the successive non-overlapping pairs of
    characters that hold no line terminator, scanning from the left;
    [None] is the [null] that [match] returns when there is no pair. *)
Fixpoint scan_pairs (s : string) : list string :=
  match s with
  | String a ((String b rest) as tl) =>
      if is_line_terminator a then scan_pairs tl
      else if is_line_terminator b then scan_pairs rest
      else String a (String b "") :: scan_pairs rest
  | _ => []
  end.

Definition match_pairs (s : string) : option (list string) :=
  match scan_pairs s with
  | [] => None
  | gs => Some gs
  end.

(** The white space that [parseInt] skips (8-bit characters): TAB, LF, VT,
    FF, CR, SP and NBSP. *)
Definition is_white_space (c : ascii) : bool :=
  let n := N_of_ascii c in
  ((9 <=? n) && (n <=? 13) || (n =? 32) || (n =? 160))%N.

Fixpoint trim_start (s : string) : string :=
  match s with
  | String c rest => if is_white_space c then trim_start rest else s
  | EmptyString => s
  end.

Definition hex_value (c : ascii) : option Z :=
  let n := Z.of_N (N_of_ascii c) in
  if (48 <=? n) && (n <=? 57) then Some (n - 48)
  else if (97 <=? n) && (n <=? 102) then Some (n - 87)
  else if (65 <=? n) && (n <=? 70) then Some (n - 55)
  else None.

(** The value of the longest prefix of hexadecimal digits, [None] when that
    prefix is empty. *)
Fixpoint hex_prefix (s : string) (acc : option Z) : option Z :=
  match s with
  | String c rest =>
      match hex_value c with
      | Some d => hex_prefix rest (Some (16 * nullish acc 0 + d))
      | None => acc
      end
  | EmptyString => acc
  end.

Definition strip_0x (s : string) : string :=
  match s with
  | String "0" (String "x" rest) => rest
  | String "0" (String "X" rest) => rest
  | _ => s
  end.

(** [parseInt(x, 16)]; [None] is NaN. *)
Definition parseInt16 (x : string) : option Z :=
  let s := trim_start x in
  let '(sign, s) :=
    match s with
    | String "-" rest => (-1, rest)
    | String "+" rest => (1, rest)
    | _ => (1, s)
    end in
  match hex_prefix (strip_0x s) None with
  | Some m => Some (sign * m)
  | None => None
  end.

(** The conversion of a number to an element of a [Uint8Array]: NaN becomes
    0, an integer is reduced modulo 256. *)
Definition ToUint8 (x : option Z) : byte :=
  match x with
  | None => x00
  | Some z => nullish (Byte.of_N (Z.to_N (z mod 256))) x00
  end.

(** [#str2bin]:
    [new Uint8Array(str.match(/.{2}/g)!.map((x) => parseInt(x, 16))).buffer].
    Calling [map] on [null] raises a [TypeError]. *)
Definition str2bin (str : string) : outcome (list byte) :=
  match match_pairs str with
  | None => Throw (TypeError "Cannot read properties of null (reading 'map')")
  | Some gs => Ret (map (fun x => ToUint8 (parseInt16 x)) gs)
  end.

(** [#toStoreValue] *)
Definition toStoreValue (value : KVValue) : string * Z :=
  match value with
  | VString s => (s, VTYPE_string)
  | VBuffer b => (bin2str b, VTYPE_buffer)
  end.

(** [#toUseValue]; a [vtype] that no [case] matches falls out of the
    [switch] and the function returns [undefined] ([None]). *)
Definition toUseValue (value : string) (vtype : Z) : outcome (option KVValue) :=
  if vtype =? VTYPE_string then Ret (Some (VString value))
  else if vtype =? VTYPE_buffer then
    match str2bin value with
    | Ret b => Ret (Some (VBuffer b))
    | Throw e => Throw e
    end
  else Ret None.

End Codec.

(** ** The SQL storage *)

Module Sql.

(** A row of
    [dokvs (key string primary key not null, val text not null,
            ttl integer not null, vtype integer not null)]. *)
Record Row : Type := mkRow {
  key : string;
  val : string;
  ttl : Z;
  vtype : Z
}.

Definition table : Type := list Row.

(** The statements of the class, with their bound parameters. *)
Inductive stmt : Type :=
| UPSERT (k v : string) (t vt : Z)
| SELECT (k : string) (now : Z)
| LIST (pat : string) (now : Z) (lim : Z)
| DELETE (k : string)
| CLEAR
| CLEANUP (now : Z).

(** [(ttl = 0 or ttl >= ?)] *)
Definition live_at (now : Z) (r : Row) : bool :=
  (ttl r =? 0) || (ttl r >=? now).

(** [ttl > 0 and ttl < ?] *)
Definition stale_at (now : Z) (r : Row) : bool :=
  (ttl r >? 0) && (ttl r <? now).

(** LIKE folds the case of the ASCII letters. *)
Definition lower (c : ascii) : ascii :=
  let n := N_of_ascii c in
  if ((65 <=? n) && (n <=? 90))%N then ascii_of_N (n + 32) else c.

Definition eq_nocase (a b : ascii) : bool := Ascii.eqb (lower a) (lower b).

(** The matching of LIKE without ESCAPE, character by character: [%]
    stands for any run of characters, [_] for any one character, any other
    character for itself up to the case of ASCII letters. *)
Fixpoint like_chars (pat : string) : string -> bool :=
  match pat with
  | EmptyString => fun s => match s with EmptyString => true | _ => false end
  | String c pat' =>
      if Ascii.eqb c "%" then
        fix any_run (s : string) : bool :=
          like_chars pat' s
          || match s with EmptyString => false | String _ s' => any_run s' end
      else if Ascii.eqb c "_" then
        fun s =>
          match s with EmptyString => false | String _ s' => like_chars pat' s' end
      else
        fun s =>
          match s with
          | EmptyString => false
          | String d s' => eq_nocase c d && like_chars pat' s'
          end
  end.

(** A text up to its first NUL character. *)
Fixpoint until_nul (s : string) : string :=
  match s with
  | EmptyString => EmptyString
  | String c rest =>
      if Ascii.eqb c Ascii.zero then EmptyString else String c (until_nul rest)
  end.

(** [s like pat]: the engine reads the pattern and the text as far as
    their first NUL character. *)
Definition like (pat s : string) : bool :=
  like_chars (until_nul pat) (until_nul s).

(** The length of a text in bytes of UTF-8, a character above 127 taking
    two. *)
Fixpoint utf8_length (s : string) : nat :=
  match s with
  | EmptyString => O
  | String c rest =>
      ((if (N_of_ascii c <? 128)%N then 1 else 2) + utf8_length rest)%nat
  end.

(** The longest LIKE pattern, in bytes, that the engine of the Workers
    runtime takes; [#LIST] raises an error on a longer one as soon as it
    compares a key with it. *)
Definition like_pattern_limit : nat := 50.

Definition like_pattern_fits (pat : string) : bool :=
  (utf8_length pat <=? like_pattern_limit)%nat.

(** The white space that the engine skips in front of a number. *)
Definition is_sql_space (c : ascii) : bool :=
  let n := N_of_ascii c in ((9 <=? n) && (n <=? 13) || (n =? 32))%N.

Fixpoint skip_sql_space (s : string) : string :=
  match s with
  | String c rest => if is_sql_space c then skip_sql_space rest else s
  | EmptyString => s
  end.

(** A key that the column [key string] keeps as the text it is.  The
    declared type gives the column numeric affinity, so that a key that
    reads as a number is stored as that number and [01], [1] and [1.0]
    name one row; a key whose first character after white space cannot
    start a number is kept as text.  The table of this embedding compares
    keys as texts, which is what the engine does on such keys. *)
Definition text_key (k : string) : bool :=
  match skip_sql_space k with
  | EmptyString => true
  | String c _ =>
      let n := N_of_ascii c in
      negb ((48 <=? n) && (n <=? 57) || (n =? 43) || (n =? 45) || (n =? 46))%N
  end.

(** The order in which [#LIST] yields rows.  Its filter on [ttl] is
    answered through [expindex], first for [ttl = 0] and then for
    [ttl >= ?]: the rows with ttl 0 come first, in the order of the table,
    and the others follow by ttl, rows of the same ttl in the order of the
    table. *)
Fixpoint insert_by_ttl (r : Row) (rows : list Row) : list Row :=
  match rows with
  | [] => [r]
  | x :: rest =>
      if ttl r <=? ttl x then r :: rows else x :: insert_by_ttl r rest
  end.

Definition sort_by_ttl (rows : list Row) : list Row :=
  fold_right insert_by_ttl [] rows.

Definition index_order (rows : list Row) : list Row :=
  filter (fun r => ttl r =? 0) rows
  ++ sort_by_ttl (filter (fun r => negb (ttl r =? 0)) rows).

(** [insert .. on conflict (key) do update set val = excluded.val,
    ttl = excluded.ttl, vtype = excluded.vtype]: the row that holds the
    key is rewritten in place; without one the new row is added. *)
Fixpoint upsert (r : Row) (t : table) : table :=
  match t with
  | [] => [r]
  | x :: rest =>
      if String.eqb (key x) (key r)
      then mkRow (key x) (val r) (ttl r) (vtype r) :: rest
      else x :: upsert r rest
  end.

(** [limit ?]: a negative limit is no limit. *)
Definition take (lim : Z) (rows : list Row) : list Row :=
  if lim <? 0 then rows else firstn (Z.to_nat lim) rows.

(** [key = ?] *)
Definition has_key (k : string) (r : Row) : bool := String.eqb (key r) k.

(** [where key = ? and (ttl = 0 or ttl >= ?)] *)
Definition selects (k : string) (now : Z) (r : Row) : bool :=
  has_key k r && live_at now r.

(** [where key like ? and (ttl = 0 or ttl >= ?)] *)
Definition listed (pat : string) (now : Z) (r : Row) : bool :=
  like pat (key r) && live_at now r.

(** [exec]: the table after the statement and the rows of its cursor.
    [SELECT] reads the columns [val, vtype] of its rows and [LIST] the
    columns [key, ttl].  [LIST] is given for a pattern within
    [like_pattern_limit]. *)
Definition exec (q : stmt) (t : table) : table * list Row :=
  match q with
  | UPSERT k v e vt => (upsert (mkRow k v e vt) t, [])
  | SELECT k now =>
      (t, filter (selects k now) t)
  | LIST pat now lim =>
      (t, take lim (index_order (filter (listed pat now) t)))
  | DELETE k => (filter (fun r => negb (has_key k r)) t, [])
  | CLEAR => ([], [])
  | CLEANUP now => (filter (fun r => negb (stale_at now r)) t, [])
  end.

End Sql.

(** ** A JavaScript [Map<string, number>] *)

Module JsMap.

(** The entries in insertion order, one per key. *)
Definition t : Type := list (string * Z).

(** [m.set(k, v)] *)
Fixpoint set (k : string) (v : Z) (m : t) : t :=
  match m with
  | [] => [(k, v)]
  | (k', v') :: rest =>
      if String.eqb k' k then (k', v) :: rest else (k', v') :: set k v rest
  end.

(** [new Map(entries)] *)
Definition of_entries (entries : list (string * Z)) : t :=
  fold_left (fun m e => set (fst e) (snd e) m) entries [].

(** [m.size] *)
Definition size (m : t) : nat := List.length m.

End JsMap.

(** ** The class [DOKVS] *)

Module DOKVS.
Import Codec Sql.

(** The instance: the table behind [#sql] and the private fields
    [#interval] and [#timing]. *)
Record state : Type := mkState {
  sql : table;
  interval : Z;
  timing : Z
}.

(** The instance a constructor leaves once the schema is in place:
    [#interval = 86400], [#timing = 0] and an empty table. *)
Definition initial : state := mkState [] 86400 0.

Definition with_sql (s : state) (t : table) : state :=
  mkState t (interval s) (timing s).

(** [#cleanup] *)
Definition cleanup (now : Z) (s : state) : state :=
  if timing s >=? now then s
  else
    let s' := mkState (sql s) (interval s) (now + interval s) in
    with_sql s' (fst (exec (CLEANUP now) (sql s'))).

(** A step of a deferred closure. *)
Inductive action : Type :=
| Exec (q : stmt)
| Cleanup.

(** The body of a closure queued with [ctx.waitUntil]. *)
Definition task : Type := list action.

Definition run_action (now : Z) (s : state) (a : action) : state :=
  match a with
  | Exec q => with_sql s (fst (exec q (sql s)))
  | Cleanup => cleanup now s
  end.

Definition run_task (now : Z) (tk : task) (s : state) : state :=
  fold_left (run_action now) tk s.

(** [get] *)
Definition get (k : string) (now : Z) (s : state)
  : outcome (option KVValue) * state :=
  let '(t', cursor) := exec (SELECT k now) (sql s) in
  (match cursor with
   | [] => Ret None
   | r :: _ => toUseValue (val r) (vtype r)
   end, with_sql s t').

(** [put]: [None] when the method returns before it queues anything. *)
Definition put (k : string) (value : KVValue) (expiration : option Q) (now : Z)
  : option task :=
  let exp := Math_trunc (nullish expiration 0%Q) in
  if negb (exp =? 0) && (exp <? now) then None
  else
    let '(v, vt) := toStoreValue value in
    Some [Exec (UPSERT k v exp vt); Cleanup].

(** [delete] *)
Definition delete (k : string) : task := [Exec (DELETE k)].

(** [clear] *)
Definition clear : task := [Exec CLEAR].

(** [KVListOptions] *)
Record KVListOptions : Type := mkOptions {
  prefix : option string;
  limit : option Q
}.

(** [options?.f] *)
Definition opt_field {A : Type} (options : option KVListOptions)
  (f : KVListOptions -> option A) : option A :=
  match options with Some o => f o | None => None end.

(** The pattern bound to [key like ?]. *)
Definition list_pattern (options : option KVListOptions) : string :=
  let p := opt_field options prefix in
  if match p with Some x => String.eqb x "%" | None => false end
  then "%"
  else (nullish p "" ++ "%")%string.

(** The number bound to [limit ?]. *)
Definition list_limit (options : option KVListOptions) : Z :=
  Math_trunc
    (Math_min (Math_max (nullish (opt_field options limit) (1000 # 1)) (1 # 1))
       (1000 # 1)).

(** [list]; [ignoreTtl] is [undefined] ([None]) when omitted. *)
Definition list (options : option KVListOptions) (ignoreTtl : option bool)
  (now : Z) (s : state) : JsMap.t * state :=
  let '(t', result) :=
    exec (LIST (list_pattern options)
               (if nullish ignoreTtl false then 0 else now)
               (list_limit options)) (sql s) in
  (JsMap.of_entries (map (fun r => (key r, ttl r)) result), with_sql s t').

(** [setCleanupInterval] *)
Definition setCleanupInterval (i : Q) (reset : option bool) (now : Z)
  (s : state) : state :=
  if Qle_bool i 0 then s
  else
    let s' := mkState (sql s) (Math_trunc i) (timing s) in
    if nullish reset false
    then mkState (sql s') (interval s') (now + interval s')
    else s'.

(** *** Properties of tables and patterns used in the statements below *)

(** The primary key: no two rows hold the same key. *)
Definition unique_keys (t : table) : Prop := NoDup (map key t).

(** A row as [put] writes it at a non-negative time. *)
Definition row_ok (r : Row) : Prop :=
  0 <= ttl r /\ (vtype r = VTYPE_string \/ vtype r = VTYPE_buffer).

(** A table all of whose keys the engine keeps as text. *)
Definition text_keys (t : table) : Prop :=
  Forall (fun r => text_key (key r) = true) t.


Fixpoint starts_with_nocase (p s : string) : bool :=
  match p, s with
  | EmptyString, _ => true
  | String c p', String d s' => eq_nocase c d && starts_with_nocase p' s'
  | String _ _, EmptyString => false
  end.

(** No [%] and no [_] in the string. *)
Fixpoint no_wildcard (p : string) : bool :=
  match p with
  | EmptyString => true
  | String c p' =>
      negb (Ascii.eqb c "%") && negb (Ascii.eqb c "_") && no_wildcard p'
  end.

(** *** Calls and their completion *)

(** A call of a public method by the owner. *)
Inductive call : Type :=
| Get (k : string)
| Put (k : string) (value : KVValue) (expiration : option Q)
| Delete (k : string)
| Clear
| List (options : option KVListOptions) (ignoreTtl : option bool)
| SetCleanupInterval (i : Q) (reset : option bool).

(** The task a call queues, if any. *)
Definition queued (c : call) (now : Z) : option task :=
  match c with
  | Put k v e => put k v e now
  | Delete k => Some (delete k)
  | Clear => Some clear
  | _ => None
  end.

(** The instance after a call made at time [now] and after the task it
    queued, if any, has run. *)
Definition step (now : Z) (c : call) (s : state) : state :=
  match c with
  | Get k => snd (get k now s)
  | List o i => snd (list o i now s)
  | SetCleanupInterval i r => setCleanupInterval i r now s
  | Put _ _ _ | Delete _ | Clear =>
      match queued c now with
      | Some tk => run_task now tk s
      | None => s
      end
  end.

(** The instances the owner can bring about, every call being made at a
    non-negative time. *)
Inductive reachable : state -> Prop :=
| reach_initial : reachable initial
| reach_step (now : Z) (c : call) (s : state) :
    reachable s -> 0 <= now -> reachable (step now c s).

End DOKVS.

(** ** Schema bootstrap *)

Module Bootstrap.

(** What a [DurableObjectState] persists: the entry ["init"] of the
    key-value storage ([None] until it is put), and whether the table
    [dokvs] and the index [expindex] exist. *)
Record ctx : Type := mkCtx {
  init : option bool;
  has_table : bool;
  has_index : bool
}.

Definition fresh : ctx := mkCtx None false false.

(** [#TABLE] and [#INDEX] *)
Inductive ddl : Type := TABLE | INDEX.

(** A storage call made during the bootstrap. *)
Inductive effect : Type :=
| StoragePut (k : string) (v : bool)
| SqlExec (d : ddl).

(** [#isTable]: [await ctx.storage.get("init") ?? false] *)
Definition isTable (c : ctx) : bool := nullish (init c) false.

(** [#createTable]: the calls of its body, in order. *)
Definition createTable : list effect :=
  [StoragePut "init" true; SqlExec TABLE; SqlExec INDEX].

(** [#initialize]: the calls made inside [blockConcurrencyWhile]. *)
Definition initialize (c : ctx) : list effect :=
  if isTable c then [] else createTable.

(** [create table if not exists] succeeds whether or not the table
    exists; [create index], which has no such clause, needs the table and
    fails on an index that exists.  Only the entry ["init"] of the
    key-value storage is kept. *)
Definition apply (c : ctx) (e : effect) : outcome ctx :=
  match e with
  | StoragePut k v =>
      if String.eqb k "init" then Ret (mkCtx (Some v) (has_table c) (has_index c))
      else Ret c
  | SqlExec TABLE => Ret (mkCtx (init c) true (has_index c))
  | SqlExec INDEX =>
      if negb (has_table c) then Throw (SqlError "no such table: main.dokvs")
      else if has_index c then Throw (SqlError "index expindex already exists")
      else Ret (mkCtx (init c) (has_table c) true)
  end.

Fixpoint run (es : list effect) (c : ctx) : outcome ctx :=
  match es with
  | [] => Ret c
  | e :: rest =>
      match apply c e with
      | Ret c' => run rest c'
      | Throw err => Throw err
      end
  end.

(** The storage once the constructor's bootstrap has run. *)
Definition construct (c : ctx) : outcome ctx := run (initialize c) c.

End Bootstrap.

(** ** The barrier around the bootstrap *)

Module Barrier.
Import Bootstrap.

(** [ctx.blockConcurrencyWhile(callback)] holds every request back until
    the callback has returned; when the callback throws, the object is
    reset and serves nothing.  [Blocked rest]: the callback still has the
    calls [rest] to make. *)
Inductive phase : Type :=
| Blocked (rest : list effect)
| Open
| Broken (e : error).

(** A constructed object: the storage it works on and its barrier. *)
Record instance : Type := mkInstance {
  storage : ctx;
  barrier : phase
}.

(** The constructor, on the storage that the object finds. *)
Definition new (c : ctx) : instance := mkInstance c (Blocked (initialize c)).

(** What happens next to an object: the callback makes its next call, or
    returns when it has none left; or a request arrives. *)
Inductive move : Type := Advance | Request.

(** The object after the callback has moved on, and the call it made. *)
Definition advance (i : instance) : instance * list effect :=
  match barrier i with
  | Blocked [] => (mkInstance (storage i) Open, [])
  | Blocked (e :: rest) =>
      match apply (storage i) e with
      | Ret c' => (mkInstance c' (Blocked rest), [e])
      | Throw err => (mkInstance (storage i) (Broken err), [])
      end
  | Open | Broken _ => (i, [])
  end.

(** The storage that a request sees, when the barrier lets it in. *)
Definition serve (i : instance) : list ctx :=
  match barrier i with
  | Open => [storage i]
  | Blocked _ | Broken _ => []
  end.

(** What requests saw, which calls the bootstrap made, and the object at
    the end. *)
Record history : Type := mkHistory {
  seen : list ctx;
  made : list effect;
  last : instance
}.

Fixpoint run (ms : list move) (i : instance) : history :=
  match ms with
  | [] => mkHistory [] [] i
  | Advance :: rest =>
      let h := run rest (fst (advance i)) in
      mkHistory (seen h) (snd (advance i) ++ made h) (last h)
  | Request :: rest =>
      let h := run rest i in
      mkHistory (serve i ++ seen h) (made h) (last h)
  end.

Definition is_open (i : instance) : bool :=
  match barrier i with Open => true | _ => false end.

(** The life of a store: objects are constructed one after the other on
    the storage that the one before left.  [lifetime] gives what requests
    saw and which calls the bootstraps made over all of them, and the
    storage at the end. *)
Fixpoint lifetime (lives : list (list move)) (c : ctx) : history :=
  match lives with
  | [] => mkHistory [] [] (mkInstance c Open)
  | ms :: rest =>
      let h := run ms (new c) in
      let h' := lifetime rest (storage (last h)) in
      mkHistory (seen h ++ seen h') (made h ++ made h') (last h')
  end.

(** Every object of the life got to the end of its bootstrap. *)
Fixpoint settled (lives : list (list move)) (c : ctx) : bool :=
  match lives with
  | [] => true
  | ms :: rest =>
      let h := run ms (new c) in
      is_open (last h) && settled rest (storage (last h))
  end.

End Barrier.

(** ** The clock *)

Module Clock.

(** [DOKVS.now()]: [Math.trunc(Date.now() / 1000)], from the milliseconds
    that [Date.now()] returns. *)
Definition now (Date_now : Z) : Z :=
  Math_trunc (inject_Z Date_now / inject_Z 1000).

End Clock.

(** ** Predicates on text *)

Module Text.

Fixpoint forall_chars (p : ascii -> bool) (s : string) : bool :=
  match s with
  | EmptyString => true
  | String c rest => p c && forall_chars p rest
  end.

(** One of [0-9a-f]. *)
Definition is_lower_hex (c : ascii) : bool :=
  let n := N_of_ascii c in
  ((48 <=? n) && (n <=? 57) || (97 <=? n) && (n <=? 102))%N.

Definition no_line_terminator (s : string) : bool :=
  forall_chars (fun c => negb (Codec.is_line_terminator c)) s.

(** No NUL character in the text. *)
Definition no_nul (s : string) : bool :=
  forall_chars (fun c => negb (Ascii.eqb c Ascii.zero)) s.

End Text.

(** ** The class [KVRealtimeStore], the caller of [DOKVS] *)

Module KVRealtimeStore.
Import Codec.

(** [KVPutOptions] *)
Record KVPutOptions : Type := mkPutOptions {
  expiration : option Q;
  ttl : option Q
}.

(** [KVGetOptions] *)
Inductive value_type : Type := type_string | type_bytes.

Record KVGetOptions : Type := mkGetOptions {
  type : option value_type
}.

(** Whether an optional number is truthy: defined and not zero. *)
Definition truthy (x : option Q) : bool :=
  match x with
  | Some q => negb (Qeq_bool q 0)
  | None => false
  end.

(** [#getTTL]; [now] is the clock of the caller.  The sum is exact; the
    code rounds it to a double, which is the same number when both terms
    are whole numbers and the sum is within 2^53. *)
Definition getTTL (options : option KVPutOptions) (now : Z) : Q :=
  match options with
  | None => 0%Q
  | Some o =>
      if truthy (expiration o) then nullish (expiration o) 0%Q
      else if negb (truthy (ttl o)) then 0%Q
      else (inject_Z now + nullish (ttl o) 0%Q)%Q
  end.

(** [put]: the call it makes on the Durable Object. *)
Definition put (k : string) (value : KVValue) (options : option KVPutOptions)
  (caller_now : Z) : DOKVS.call :=
  DOKVS.Put k value (Some (getTTL options caller_now)).

(** [get]: the options are not passed on. *)
Definition get (k : string) (options : option KVGetOptions) (now : Z)
  (s : DOKVS.state) : outcome (option KVValue) * DOKVS.state :=
  DOKVS.get k now s.

(** [delete]: the call it makes on the Durable Object. *)
Definition delete (k : string) : DOKVS.call := DOKVS.Delete k.

(** [list]: [ignoreTtl] is not passed. *)
Definition list (options : option DOKVS.KVListOptions) (now : Z)
  (s : DOKVS.state) : JsMap.t * DOKVS.state :=
  DOKVS.list options None now s.

End KVRealtimeStore.

(** ** The binding getters of the package *)

Module Bindings.

(** A JavaScript value as the guards see it.  An object carries whether it
    can be called, the classes it is an instance of, and the properties
    that a lookup finds on it, its own or inherited.  Symbols and bigints
    are left out. *)
#[local] Unset Elimination Schemes.
Inductive value : Type :=
| Undefined
| Null
| Boolean (b : bool)
| Number (q : Q)
| NaN
| Str (s : string)
| Object (callable : bool) (classes : list string)
    (props : list (string * value)).
#[local] Set Elimination Schemes.

Inductive type_name : Type :=
| t_undefined | t_object | t_boolean | t_number | t_string | t_function.

(** [typeof v] *)
Definition typeof (v : value) : type_name :=
  match v with
  | Undefined => t_undefined
  | Null => t_object
  | Boolean _ => t_boolean
  | Number _ | NaN => t_number
  | Str _ => t_string
  | Object true _ _ => t_function
  | Object false _ _ => t_object
  end.

Definition is_type (v : value) (t : type_name) : bool :=
  match typeof v, t with
  | t_undefined, t_undefined | t_object, t_object | t_boolean, t_boolean
  | t_number, t_number | t_string, t_string | t_function, t_function => true
  | _, _ => false
  end.

(** [!v] *)
Definition falsy (v : value) : bool :=
  match v with
  | Undefined | Null | NaN => true
  | Boolean b => negb b
  | Number q => Qeq_bool q 0
  | Str s => String.eqb s ""
  | Object _ _ _ => false
  end.

Fixpoint lookup (name : string) (props : list (string * value)) : option value :=
  match props with
  | [] => None
  | (n, v) :: rest => if String.eqb n name then Some v else lookup name rest
  end.

(** [v[name]] on a value that is neither [undefined] nor [null]; a
    primitive has none of the properties the guards ask for. *)
Definition get_prop (v : value) (name : string) : value :=
  match v with
  | Object _ _ props => nullish (lookup name props) Undefined
  | _ => Undefined
  end.

(** [name in v], for an object. *)
Definition has_prop (v : value) (name : string) : bool :=
  match v with
  | Object _ _ props =>
      match lookup name props with Some _ => true | None => false end
  | _ => false
  end.

(** [v instanceof C] for a platform class named [C]. *)
Definition instanceof (v : value) (cls : string) : bool :=
  match v with
  | Object _ classes _ => existsb (String.eqb cls) classes
  | _ => false
  end.

(** Which platform classes the runtime defines as globals
    ([typeof C !== "undefined"]). *)
Record runtime : Type := mkRuntime {
  defines_DurableObjectNamespace : bool;
  defines_D1Database : bool;
  defines_R2Bucket : bool
}.

(** [names.every((method) => typeof obj[method] === "function")] *)
Definition every_is_function (obj : value) (names : list string) : bool :=
  forallb (fun method => is_type (get_prop obj method) t_function) names.

(** [isDurableObjectNamespace] *)
Definition isDurableObjectNamespace (rt : runtime) (obj : value) : bool :=
  if falsy obj then false
  else if defines_DurableObjectNamespace rt
  then is_type obj t_object && instanceof obj "DurableObjectNamespace"
  else every_is_function obj
         ["newUniqueId"; "idFromName"; "idFromString"; "get"; "getByName";
          "jurisdiction"].

(** [isKVNamespace] *)
Definition isKVNamespace (obj : value) : bool :=
  if falsy obj || negb (is_type obj t_object) then false
  else every_is_function obj ["get"; "put"; "delete"; "list"; "getWithMetadata"].

(** [isD1Database] *)
Definition isD1Database (rt : runtime) (obj : value) : bool :=
  if falsy obj then false
  else if defines_D1Database rt
  then is_type obj t_object && instanceof obj "D1Database"
  else every_is_function obj ["prepare"; "batch"; "exec"; "withSession"].

(** [isHyperdrive] *)
Definition isHyperdrive (obj : value) : bool :=
  if falsy obj || negb (is_type obj t_object) then false
  else forallb (has_prop obj)
         ["connect"; "connectionString"; "host"; "port"; "user"; "password";
          "database"].

(** [isR2Bucket] *)
Definition isR2Bucket (rt : runtime) (obj : value) : bool :=
  if falsy obj then false
  else if defines_R2Bucket rt
  then is_type obj t_object && instanceof obj "R2Bucket"
  else every_is_function obj
         ["head"; "get"; "put"; "delete"; "list"; "createMultipartUpload";
          "resumeMultipartUpload"].

(** [getEnvProp]: [env[name]], the environment being an object given by
    its properties. *)
Definition getEnvProp (env : list (string * value)) (name : string) : value :=
  nullish (lookup name env) Undefined.

(** The store a getter builds around a binding. *)
Inductive store : Type :=
| new_KVEventualStore (arg : value)
| new_KVRealtimeStore (arg : value)
| new_RDBEventualStore (arg : value)
| new_BOStore (arg : value).

(** What a getter does: it returns, or throws an [Error] with a message. *)
Inductive result (A : Type) : Type :=
| Returned (a : A)
| ThrownError (message : string).
Arguments Returned {A} a.
Arguments ThrownError {A} message.

Definition double_quote : ascii := ascii_of_N 34.

(** The template [`"${name}" is not binding as ${what}.`] *)
Definition not_binding_as (name what : string) : string :=
  (String double_quote name
   ++ String double_quote (" is not binding as " ++ what ++ "."))%string.

(** [getKVSEventual] *)
Definition getKVSEventual (name : string) (env : list (string * value))
  : result store :=
  let obj := getEnvProp env name in
  if isKVNamespace obj then Returned (new_KVEventualStore obj)
  else ThrownError (not_binding_as name "KV Namespace").

(** [getKVSRealtime] *)
Definition getKVSRealtime (rt : runtime) (name : string)
  (env : list (string * value)) : result store :=
  let obj := getEnvProp env name in
  if isDurableObjectNamespace rt obj then Returned (new_KVRealtimeStore obj)
  else ThrownError (not_binding_as name "Durable Objects").

(** [getRDBEventual] *)
Definition getRDBEventual (rt : runtime) (name : string)
  (env : list (string * value)) : result store :=
  let obj := getEnvProp env name in
  if isD1Database rt obj then Returned (new_RDBEventualStore obj)
  else ThrownError (not_binding_as name "D1 Database").

(** [getRDBConnectionString] *)
Definition getRDBConnectionString (name : string) (env : list (string * value))
  : result value :=
  let obj := getEnvProp env name in
  if isHyperdrive obj then Returned (get_prop obj "connectionString")
  else ThrownError (not_binding_as name "Hyperdrive").

(** [getBOS] *)
Definition getBOS (rt : runtime) (name : string) (env : list (string * value))
  : result store :=
  let obj := getEnvProp env name in
  if isR2Bucket rt obj then Returned (new_BOStore obj)
  else ThrownError (not_binding_as name "R2 Bucket").

(** A value that is not an object and not a function. *)
Definition is_primitive (v : value) : bool :=
  match v with Object _ _ _ => false | _ => true end.

End Bindings.

(** * Proofs *)

Example bin2str_sample :
  Codec.bin2str [x00; xff; x10] = "00ff10".
Proof. reflexivity. Qed.

Example str2bin_sample :
  Codec.str2bin "00ff10" = Ret [x00; xff; x10].
Proof. reflexivity. Qed.

(** ** The codec *)

Section CodecFacts.
Import Codec.

(** Every byte is written as two characters that [/.{2}/] accepts and
    that [parseInt] reads back as the byte. *)
Lemma byte_two_hex (b : byte) :
  exists c1 c2,
    padStart 2 "0"%char (toString16 (Byte.to_N b)) = String c1 (String c2 "")
    /\ is_line_terminator c1 = false
    /\ is_line_terminator c2 = false
    /\ ToUint8 (parseInt16 (String c1 (String c2 ""))) = b.
Proof.
  destruct b; do 2 eexists; (split; [reflexivity | repeat split; reflexivity]).
Qed.

Lemma bin2str_cons (b : byte) (bs : list byte) :
  bin2str (b :: bs)
  = (padStart 2 "0"%char (toString16 (Byte.to_N b)) ++ bin2str bs)%string.
Proof. reflexivity. Qed.

Lemma scan_pairs_bin2str (bs : list byte) :
  map (fun x => ToUint8 (parseInt16 x)) (scan_pairs (bin2str bs)) = bs.
Proof.
  induction bs as [|b bs IH]; [reflexivity|].
  rewrite bin2str_cons.
  destruct (byte_two_hex b) as (c1 & c2 & Hpad & H1 & H2 & Hback).
  rewrite Hpad. cbn [append scan_pairs].
  rewrite H1, H2. cbn [map]. now rewrite Hback, IH.
Qed.

(** Decoding what [#bin2str] wrote gives the bytes back, unless there
    were none. *)
Lemma str2bin_bin2str_nonempty (b : byte) (bs : list byte) :
  str2bin (bin2str (b :: bs)) = Ret (b :: bs).
Proof.
  unfold str2bin, match_pairs.
  pose proof (scan_pairs_bin2str (b :: bs)) as H.
  destruct (scan_pairs (bin2str (b :: bs))) as [|g gs]; [discriminate H|].
  now rewrite H.
Qed.

Lemma str2bin_empty :
  str2bin "" = Throw (TypeError "Cannot read properties of null (reading 'map')").
Proof. reflexivity. Qed.

End CodecFacts.

(** ** Tables *)

Section TableFacts.
Import Codec Sql DOKVS.

Lemma with_sql_same (s : state) : with_sql s (sql s) = s.
Proof. now destruct s. Qed.

Lemma live_at_spec (now : Z) (r : Row) :
  live_at now r = true <-> ttl r = 0 \/ now <= ttl r.
Proof. unfold live_at. rewrite orb_true_iff, Z.eqb_eq, Z.geb_le. tauto. Qed.

Lemma stale_at_spec (now : Z) (r : Row) :
  stale_at now r = true <-> 0 < ttl r < now.
Proof.
  unfold stale_at. rewrite andb_true_iff, Z.gtb_ltb, !Z.ltb_lt. tauto.
Qed.

Lemma keys_filter_incl (f : Row -> bool) (t : table) (k : string) :
  In k (map key (filter f t)) -> In k (map key t).
Proof.
  rewrite !in_map_iff. intros (r & Hk & Hin).
  apply filter_In in Hin. exists r. tauto.
Qed.

Lemma unique_keys_filter (f : Row -> bool) (t : table) :
  unique_keys t -> unique_keys (filter f t).
Proof.
  unfold unique_keys. induction t as [|x t IH]; cbn; [trivial|].
  intros H. apply NoDup_cons_iff in H as [Hx Ht].
  destruct (f x); cbn; auto.
  constructor; auto. intro Hin. apply Hx. eapply keys_filter_incl; eauto.
Qed.

Lemma keys_upsert_incl (r : Row) (t : table) (k : string) :
  In k (map key (upsert r t)) -> k = key r \/ In k (map key t).
Proof.
  induction t as [|x t IH]; cbn.
  - intuition.
  - destruct (String.eqb (key x) (key r)) eqn:E; cbn; intuition.
Qed.

Lemma unique_keys_upsert (r : Row) (t : table) :
  unique_keys t -> unique_keys (upsert r t).
Proof.
  unfold unique_keys. induction t as [|x t IH]; cbn; intros H.
  - constructor; [intros []|constructor].
  - apply NoDup_cons_iff in H as [Hx Ht].
    destruct (String.eqb (key x) (key r)) eqn:E; cbn.
    + now constructor.
    + constructor; auto. intro Hin.
      apply keys_upsert_incl in Hin as [Hk|Hin]; [|tauto].
      apply String.eqb_neq in E. congruence.
Qed.

(** An upsert on a key that the table holds rewrites the row where it is:
    the keys, and so the number of rows, stay as they were. *)
Lemma keys_upsert_present (r : Row) (t : table) :
  In (key r) (map key t) -> map key (upsert r t) = map key t.
Proof.
  induction t as [|x t IH]; cbn; [intros []|].
  destruct (String.eqb (key x) (key r)) eqn:E; cbn; [trivial|].
  intros [Hk|Hin]; [apply String.eqb_neq in E; congruence|].
  now rewrite IH.
Qed.

Lemma keys_upsert_absent (r : Row) (t : table) :
  ~ In (key r) (map key t) -> upsert r t = t ++ [r].
Proof.
  induction t as [|x t IH]; cbn; [trivial|].
  intros H. destruct (String.eqb (key x) (key r)) eqn:E.
  - apply String.eqb_eq in E. tauto.
  - rewrite IH; tauto.
Qed.

Lemma rows_ok_upsert (r : Row) (t : table) :
  row_ok r -> Forall row_ok t -> Forall row_ok (upsert r t).
Proof.
  intros Hr. induction 1 as [|x t Hx Ht IH]; cbn.
  - now constructor.
  - destruct (String.eqb (key x) (key r)); constructor; auto.
Qed.

Lemma rows_ok_filter (f : Row -> bool) (t : table) :
  Forall row_ok t -> Forall row_ok (filter f t).
Proof.
  rewrite !Forall_forall. intros H r Hin. apply filter_In in Hin. apply H, Hin.
Qed.

(** Two rows of a table with a primary key that agree on the key are the
    same row. *)
Lemma unique_keys_same_row (t : table) (r r' : Row) :
  unique_keys t -> In r t -> In r' t -> key r = key r' -> r = r'.
Proof.
  unfold unique_keys. induction t as [|x t IH]; cbn; [tauto|].
  intros H Hr Hr' Hk. apply NoDup_cons_iff in H as [Hx Ht].
  destruct Hr as [<-|Hr], Hr' as [<-|Hr']; auto.
  - exfalso. apply Hx. rewrite Hk. now apply in_map.
  - exfalso. apply Hx. rewrite <- Hk. now apply in_map.
Qed.

End TableFacts.

(** ** Reading one key *)

Section GetFacts.
Import Codec Sql DOKVS.

Lemma filter_none {A : Type} (f : A -> bool) (l : Datatypes.list A) :
  (forall x, In x l -> f x = false) -> filter f l = [].
Proof.
  induction l as [|x l IH]; cbn; intros H; [trivial|].
  rewrite (H x) by auto. apply IH. auto.
Qed.

Lemma select_absent (t : table) (k : string) (now : Z) :
  (forall r, In r t -> key r <> k) -> filter (selects k now) t = [].
Proof.
  intros H. apply filter_none. intros r Hin. unfold selects, has_key.
  apply H, String.eqb_neq in Hin. now rewrite Hin.
Qed.

(** With a primary key the cursor of [#SELECT] holds the row of the key
    when that row is live, and nothing otherwise. *)
Lemma select_present (t : table) (k : string) (now : Z) (r : Row) :
  unique_keys t -> In r t -> key r = k ->
  filter (selects k now) t = if live_at now r then [r] else [].
Proof.
  intros Hu Hin Hk. induction t as [|x t IH]; [destruct Hin|].
  pose proof Hu as Hu'. apply NoDup_cons_iff in Hu' as [Hx Ht].
  cbn [filter]. destruct Hin as [->|Hin].
  - unfold selects at 1, has_key. rewrite Hk, String.eqb_refl. cbn [andb].
    rewrite select_absent.
    + now destruct (live_at now r).
    + intros y Hy Hky. apply Hx. rewrite Hk, <- Hky. now apply in_map.
  - assert (key x <> k) as Hne.
    { intros Hkx. apply Hx. rewrite Hkx, <- Hk. now apply in_map. }
    unfold selects at 1, has_key. apply String.eqb_neq in Hne. rewrite Hne.
    cbn [andb].
    now apply IH.
Qed.

Lemma get_unfold (k : string) (now : Z) (s : state) :
  get k now s
  = (match filter (selects k now) (sql s) with
     | [] => Ret None
     | r :: _ => toUseValue (val r) (vtype r)
     end, s).
Proof. unfold get. cbn. now rewrite with_sql_same. Qed.

End GetFacts.

(** ** Writing one key *)

Section PutFacts.
Import Codec Sql DOKVS.

Lemma Math_trunc_inject_Z (z : Z) : Math_trunc (inject_Z z) = z.
Proof. unfold Math_trunc; cbn. apply Z.quot_1_r. Qed.

(** The task of an accepted [put], run to its end. *)
Lemma step_put_accepted (k : string) (v : KVValue) (e : option Q) (now : Z)
  (s : state) :
  let exp := Math_trunc (nullish e 0%Q) in
  exp = 0 \/ now <= exp ->
  step now (Put k v e) s
  = cleanup now
      (with_sql s
         (upsert (mkRow k (fst (toStoreValue v)) exp (snd (toStoreValue v)))
            (sql s))).
Proof.
  intros exp Hacc. unfold step, queued, put. fold exp.
  replace (negb (exp =? 0) && (exp <? now)) with false.
  - now destruct (toStoreValue v).
  - symmetry. apply andb_false_iff.
    destruct Hacc as [->|Hle]; [now left|right; now apply Z.ltb_ge].
Qed.

Lemma step_put_rejected (k : string) (v : KVValue) (e : option Q) (now : Z)
  (s : state) :
  let exp := Math_trunc (nullish e 0%Q) in
  exp <> 0 -> exp < now ->
  put k v e now = None /\ step now (Put k v e) s = s.
Proof.
  intros exp Hnz Hlt. unfold step, queued, put. fold exp.
  apply Z.eqb_neq in Hnz. apply Z.ltb_lt in Hlt. now rewrite Hnz, Hlt.
Qed.

Lemma first_key_upsert (k v : string) (e vt : Z) (t : table) :
  find (has_key k) (upsert (mkRow k v e vt) t) = Some (mkRow k v e vt).
Proof.
  induction t as [|x t IH]; cbn.
  - unfold has_key; cbn. now rewrite String.eqb_refl.
  - destruct (String.eqb (key x) k) eqn:E; cbn; unfold has_key at 1; cbn.
    + rewrite E. apply String.eqb_eq in E. now rewrite E.
    + now rewrite E.
Qed.

Lemma first_key_filter (k : string) (g : Row -> bool) (t : table) (r : Row) :
  find (has_key k) t = Some r -> g r = true ->
  find (has_key k) (filter g t) = Some r.
Proof.
  intros Hf Hg. induction t as [|x t IH]; cbn in *; [discriminate|].
  destruct (has_key k x) eqn:E.
  - injection Hf as ->. rewrite Hg. cbn. now rewrite E.
  - destruct (g x); cbn; [rewrite E|]; auto.
Qed.

Lemma first_key_selected (k : string) (now : Z) (t : table) (r : Row) :
  find (has_key k) t = Some r -> live_at now r = true ->
  exists rest, filter (selects k now) t = r :: rest.
Proof.
  intros Hf Hl. induction t as [|x t IH]; cbn in *; [discriminate|].
  unfold selects at 1. destruct (has_key k x); cbn [andb].
  - injection Hf as ->. rewrite Hl. eauto.
  - auto.
Qed.

Lemma first_key_cleanup (k : string) (now : Z) (s : state) (r : Row) :
  find (has_key k) (sql s) = Some r -> stale_at now r = false ->
  find (has_key k) (sql (cleanup now s)) = Some r.
Proof.
  intros Hf Hs. unfold cleanup. destruct (timing s >=? now); [trivial|].
  cbn. apply first_key_filter; [trivial|]. now rewrite Hs.
Qed.

(** After an accepted [put] the row of the key is the row written. *)
Lemma first_key_after_put (k : string) (v : KVValue) (e : option Q) (now : Z)
  (s : state) :
  let exp := Math_trunc (nullish e 0%Q) in
  exp = 0 \/ now <= exp ->
  find (has_key k) (sql (step now (Put k v e) s))
  = Some (mkRow k (fst (toStoreValue v)) exp (snd (toStoreValue v))).
Proof.
  intros exp Hacc. rewrite step_put_accepted by exact Hacc. fold exp.
  apply first_key_cleanup; [apply first_key_upsert|].
  match goal with |- stale_at now ?r = false =>
    destruct (stale_at now r) eqn:E; [|reflexivity] end.
  apply stale_at_spec in E. cbn in E. lia.
Qed.

(** A value written with an accepted expiration is what [get] decodes for
    as long as the expiration allows. *)
Lemma get_after_put (k : string) (v : KVValue) (e : option Q) (now now' : Z)
  (s : state) :
  let exp := Math_trunc (nullish e 0%Q) in
  exp = 0 \/ now <= exp ->
  exp = 0 \/ now' <= exp ->
  fst (get k now' (step now (Put k v e) s))
  = toUseValue (fst (toStoreValue v)) (snd (toStoreValue v)).
Proof.
  intros exp Hacc Hlive. rewrite get_unfold. cbn [fst].
  pose proof (first_key_after_put k v e now s Hacc) as Hf. fold exp in Hf.
  destruct (first_key_selected k now' _ _ Hf) as [rest ->]; [|reflexivity].
  apply live_at_spec. exact Hlive.
Qed.

(** A [put] on a key that the table holds adds no row. *)
Lemma put_present_adds_no_row (k : string) (v : KVValue) (e : option Q)
  (now : Z) (s : state) :
  In k (map key (sql s)) ->
  (List.length (sql (step now (Put k v e) s)) <= List.length (sql s))%nat.
Proof.
  intros Hin.
  set (exp := Math_trunc (nullish e 0%Q)).
  destruct (Z.eq_dec exp 0) as [Hz|Hnz];
    [|destruct (Z_lt_le_dec exp now) as [Hlt|Hle]].
  2: { destruct (step_put_rejected k v e now s Hnz Hlt) as [_ ->]. lia. }
  all: rewrite step_put_accepted by (fold exp; auto).
  all: fold exp;
    set (r := mkRow k (fst (toStoreValue v)) exp (snd (toStoreValue v)));
    assert (List.length (upsert r (sql s)) = List.length (sql s)) as Hlen
      by (rewrite <- (length_map key (upsert r (sql s))),
            keys_upsert_present by exact Hin; apply length_map).
  all: unfold cleanup; destruct (_ >=? now); cbn; [lia|].
  all: etransitivity; [apply filter_length_le|lia].
Qed.

End PutFacts.

(** ** Claims on the codec and on [put] *)

Section CodecAndPutClaims.
Import Codec Sql DOKVS.

(** C1. [get] performs no mutation, but it does not return the decoded
    value of every live row: after [put("x", b)] with [b] the buffer of
    length zero, which a caller may write, the table holds a row for the
    key, with the empty text and the ttl 0, live at every time, and
    [get("x")] raises the [TypeError] of [#str2bin] instead of returning
    the empty buffer.  This is so from any state, and the state after the
    [put] is one that the owner can bring about. *)
Theorem get_raises_on_stored_empty_buffer (now now' : Z) (s : state) :
  let s' := step now (Put "x" (VBuffer []) None) s in
  find (has_key "x") (sql s') = Some (mkRow "x" "" 0 VTYPE_buffer)
  /\ live_at now' (mkRow "x" "" 0 VTYPE_buffer) = true
  /\ fst (get "x" now' s')
     = Throw (TypeError "Cannot read properties of null (reading 'map')")
  /\ snd (get "x" now' s') = s'
  /\ (reachable s -> 0 <= now -> reachable s').
Proof.
  intros s'. split; [|split; [|split; [|split]]].
  - unfold s'. rewrite first_key_after_put; [reflexivity|now left].
  - reflexivity.
  - unfold s'. rewrite get_after_put; [reflexivity| |]; now left.
  - now rewrite get_unfold.
  - intros Hr Hnow. now apply reach_step.
Qed.

Lemma get_raises_on_stored_empty_buffer_witness :
  reachable initial /\ 0 <= 100
  /\ reachable (step 100 (Put "x" (VBuffer []) None) initial)
  /\ fst (get "x" 200 (step 100 (Put "x" (VBuffer []) None) initial))
     = Throw (TypeError "Cannot read properties of null (reading 'map')").
Proof.
  destruct (get_raises_on_stored_empty_buffer 100 200 initial)
    as (_ & _ & Hthrow & _ & Hreach).
  assert (0 <= 100) as Hnow by lia.
  split; [apply reach_initial|]. split; [exact Hnow|].
  split; [exact (Hreach reach_initial Hnow)|exact Hthrow].
Defined.

(** C2. The round trip of the binary codec fails on the buffer of length
    zero: [#bin2str] writes it as the empty string, in which [/.{2}/g]
    finds no pair, so that [#str2bin] calls [map] on [null] and raises a
    [TypeError]; [get] of a key written with such a buffer raises it too.
    Every other buffer, whatever its bytes, is read back as it was. *)
Theorem empty_buffer_fails_round_trip :
  bin2str [] = ""
  /\ str2bin (bin2str [])
     = Throw (TypeError "Cannot read properties of null (reading 'map')")
  /\ (forall now now' s,
        fst (get "x" now' (step now (Put "x" (VBuffer []) None) s))
        = Throw (TypeError "Cannot read properties of null (reading 'map')"))
  /\ (forall b bs, str2bin (bin2str (b :: bs)) = Ret (b :: bs))
  /\ str2bin (bin2str [x00; xff; x10]) = Ret [x00; xff; x10].
Proof.
  split; [reflexivity|]. split; [reflexivity|]. split; [|split].
  - intros now now' s. rewrite get_after_put; [reflexivity| |]; now left.
  - apply str2bin_bin2str_nonempty.
  - reflexivity.
Qed.

(** An expiration that is not a whole number is truncated before it is
    tested: one half, at the time 100, is not zero and is less than the
    time of the write, and the write is applied with the ttl 0 of a row
    that never expires. *)
Lemma put_fraction_in_past_is_stored :
  ~ (1 # 2 == 0)%Q
  /\ (1 # 2 < inject_Z 100)%Q
  /\ step 100 (Put "k" (VString "v") (Some (1 # 2)%Q)) initial
     = mkState [mkRow "k" "v" 0 0] 86400 86500
  /\ step 100 (Put "k" (VString "v") (Some (1 # 2)%Q)) initial <> initial.
Proof.
  split; [discriminate|]. split; [reflexivity|]. split; [reflexivity|].
  discriminate.
Qed.

(** C3. When the expiration is a whole number of seconds, not zero and
    less than the time of the write, [put] returns without queueing
    anything and the instance stays as it was: no row is inserted or
    updated and nothing is raised.  The same holds of any expiration whose
    truncation to a whole number is not zero and is less than the time of
    the write. *)
Theorem put_expired_is_dropped (k : string) (v : KVValue) (now : Z) (s : state) :
  (forall e : Q, Math_trunc e <> 0 -> Math_trunc e < now ->
     put k v (Some e) now = None
     /\ queued (Put k v (Some e)) now = None
     /\ step now (Put k v (Some e)) s = s)
  /\ (forall z : Z, z <> 0 -> z < now ->
        put k v (Some (inject_Z z)) now = None
        /\ queued (Put k v (Some (inject_Z z))) now = None
        /\ step now (Put k v (Some (inject_Z z))) s = s).
Proof.
  assert (forall e : Q, Math_trunc e <> 0 -> Math_trunc e < now ->
            put k v (Some e) now = None
            /\ queued (Put k v (Some e)) now = None
            /\ step now (Put k v (Some e)) s = s) as H.
  { intros e Hnz Hlt.
    destruct (step_put_rejected k v (Some e) now s Hnz Hlt) as [Hp Hs].
    repeat split; assumption. }
  split; [exact H|].
  intros z Hnz Hlt. apply H; now rewrite Math_trunc_inject_Z.
Qed.

Lemma put_expired_is_dropped_witness :
  Math_trunc (99 # 2) <> 0 /\ Math_trunc (99 # 2) < 100
  /\ put "k" (VString "v") (Some (99 # 2)%Q) 100 = None
  /\ step 100 (Put "k" (VString "v") (Some (inject_Z 50))) initial = initial.
Proof.
  destruct (put_expired_is_dropped "k" (VString "v") 100 initial) as [Hq Hz].
  split; [discriminate|]. split; [reflexivity|]. split.
  - apply (Hq (99 # 2)%Q); [discriminate|reflexivity].
  - apply (Hz 50); [discriminate|reflexivity].
Defined.

End CodecAndPutClaims.

(** ** The primary key *)

Section PrimaryKey.
Import Codec Sql DOKVS.

Lemma sql_cleanup (now : Z) (s : state) :
  sql (cleanup now s)
  = if timing s >=? now then sql s
    else filter (fun r => negb (stale_at now r)) (sql s).
Proof. unfold cleanup. now destruct (timing s >=? now). Qed.

Lemma sql_setCleanupInterval (i : Q) (reset : option bool) (now : Z) (s : state) :
  sql (setCleanupInterval i reset now s) = sql s.
Proof.
  unfold setCleanupInterval.
  destruct (Qle_bool i 0); [trivial|]. now destruct (nullish reset false).
Qed.

Lemma list_state (o : option KVListOptions) (i : option bool) (now : Z)
  (s : state) : snd (list o i now s) = s.
Proof. unfold list. cbn. apply with_sql_same. Qed.

Lemma get_state (k : string) (now : Z) (s : state) : snd (get k now s) = s.
Proof. now rewrite get_unfold. Qed.

Lemma filter_all {A : Type} (l : Datatypes.list A) :
  filter (fun _ => true) l = l.
Proof. induction l as [|x l IH]; cbn; congruence. Qed.

(** What [put] does with an expiration: it drops the write, or queues the
    upsert of a row of one of the two kinds, followed by the sweep. *)
Lemma put_cases (k : string) (v : KVValue) (e : option Q) (now : Z) :
  let exp := Math_trunc (nullish e 0%Q) in
  let r := mkRow k (fst (toStoreValue v)) exp (snd (toStoreValue v)) in
  (exp <> 0 /\ exp < now /\ put k v e now = None)
  \/ ((exp = 0 \/ now <= exp)
      /\ (vtype r = VTYPE_string \/ vtype r = VTYPE_buffer)
      /\ put k v e now = Some [Exec (UPSERT k (val r) exp (vtype r)); Cleanup]).
Proof.
  intros exp r. unfold put. fold exp.
  assert (vtype r = VTYPE_string \/ vtype r = VTYPE_buffer) as Hvt
    by (destruct v; cbn; auto).
  destruct (Z.eqb_spec exp 0) as [Hz|Hnz]; cbn [negb andb].
  - right. split; [now left|]. split; [exact Hvt|].
    subst r. now destruct (toStoreValue v).
  - destruct (Z.ltb_spec exp now) as [Hlt|Hle].
    + left. auto.
    + right. split; [now right|]. split; [exact Hvt|].
      subst r. now destruct (toStoreValue v).
Qed.

(** The table after a call: some rows of the table before it, or, after
    an accepted [put], some rows of the upserted table. *)
Lemma sql_step (now : Z) (c : call) (s : state) :
  (exists f, sql (step now c s) = filter f (sql s))
  \/ (exists r f, sql (step now c s) = filter f (upsert r (sql s))
        /\ (ttl r = 0 \/ now <= ttl r)
        /\ (vtype r = VTYPE_string \/ vtype r = VTYPE_buffer)).
Proof.
  destruct c as [k|k v e|k| |o i|i r].
  - left. exists (fun _ => true). unfold step.
    now rewrite get_state, filter_all.
  - destruct (put_cases k v e now) as [(Hnz & Hlt & _)|(Hacc & Hvt & _)].
    + left. exists (fun _ => true).
      destruct (step_put_rejected k v e now s Hnz Hlt) as [_ ->].
      now rewrite filter_all.
    + right. rewrite step_put_accepted by exact Hacc.
      rewrite sql_cleanup. cbn [with_sql sql].
      eexists. destruct (_ >=? now).
      * exists (fun _ => true). rewrite filter_all. split; [reflexivity|now split].
      * eexists. split; [reflexivity|now split].
  - left. eexists. reflexivity.
  - left. exists (fun _ => false). unfold step. cbn.
    symmetry. now apply filter_none.
  - left. exists (fun _ => true). unfold step.
    now rewrite list_state, filter_all.
  - left. exists (fun _ => true). unfold step.
    now rewrite sql_setCleanupInterval, filter_all.
Qed.

Lemma step_unique_keys (now : Z) (c : call) (s : state) :
  unique_keys (sql s) -> unique_keys (sql (step now c s)).
Proof.
  intros Hu.
  destruct (sql_step now c s) as [[f ->]|(r & f & -> & _)].
  - now apply unique_keys_filter.
  - now apply unique_keys_filter, unique_keys_upsert.
Qed.

Lemma reachable_unique_keys (s : state) :
  reachable s -> unique_keys (sql s).
Proof.
  induction 1 as [|now c s _ IH _]; [constructor|].
  now apply step_unique_keys.
Qed.

Lemma unique_keys_count (t : table) (k : string) :
  unique_keys t -> (List.length (filter (has_key k) t) <= 1)%nat.
Proof.
  unfold unique_keys. induction t as [|x t IH]; cbn; intros H; [lia|].
  apply NoDup_cons_iff in H as [Hx Ht].
  destruct (has_key k x) eqn:E; [|auto].
  rewrite filter_none; [cbn; lia|].
  intros y Hy. unfold has_key in *. apply String.eqb_eq in E.
  apply String.eqb_neq. intros Hk. apply Hx. rewrite E, <- Hk. now apply in_map.
Qed.

(** C4. In every state the owner can bring about, at most one row holds
    a given key.  The upsert of a key that the table holds keeps the keys
    of the table as they are and leaves the row with the new value, expiry
    and kind in it.  And from any state, after [put("a", "1")] and then
    [put("a", "2")], [get("a")] returns ["2"]. *)
Theorem one_row_per_key :
  (forall s k, reachable s ->
     (List.length (filter (has_key k) (sql s)) <= 1)%nat)
  /\ (forall t k v e vt, In k (map key t) ->
        map key (fst (exec (UPSERT k v e vt) t)) = map key t
        /\ find (has_key k) (fst (exec (UPSERT k v e vt) t))
           = Some (mkRow k v e vt))
  /\ (forall s k v e now tk,
        In k (map key (sql s)) -> queued (Put k v e) now = Some tk ->
        (List.length (sql (step now (Put k v e) s)) <= List.length (sql s))%nat
        /\ find (has_key k) (sql (step now (Put k v e) s))
           = Some (mkRow k (fst (toStoreValue v))
                     (Math_trunc (nullish e 0%Q)) (snd (toStoreValue v))))
  /\ (forall s now1 now2 now3,
        fst (get "a" now3
               (step now2 (Put "a" (VString "2") None)
                  (step now1 (Put "a" (VString "1") None) s)))
        = Ret (Some (VString "2"))).
Proof.
  split; [|split; [|split]].
  - intros s k Hr. now apply unique_keys_count, reachable_unique_keys.
  - intros t k v e vt Hin. cbn [exec fst]. split.
    + now apply keys_upsert_present.
    + apply first_key_upsert.
  - intros s k v e now tk Hin Hq. split; [now apply put_present_adds_no_row|].
    apply first_key_after_put.
    destruct (put_cases k v e now) as [(_ & _ & Hp)|(Hacc & _)]; [|exact Hacc].
    cbn in Hq. congruence.
  - intros s now1 now2 now3.
    rewrite get_after_put; [reflexivity| |]; now left.
Qed.

Lemma one_row_per_key_witness :
  let s := step 20 (Put "a" (VString "2") None)
             (step 10 (Put "a" (VString "1") None) initial) in
  reachable s
  /\ (List.length (filter (has_key "a") (sql s)) <= 1)%nat
  /\ In "a" (map key (sql s))
  /\ map key (fst (exec (UPSERT "a" "3" 0 0) (sql s))) = map key (sql s)
  /\ (List.length (sql (step 30 (Put "a" (VString "3") None) s))
      <= List.length (sql s))%nat.
Proof.
  intros s.
  assert (reachable s) as Hr.
  { unfold s. repeat (apply reach_step; [|lia]). apply reach_initial. }
  destruct one_row_per_key as (Hone & Hup & Hput & _).
  split; [exact Hr|]. split; [exact (Hone s "a" Hr)|].
  assert (In "a" (map key (sql s))) as Hin by (cbn; auto).
  split; [exact Hin|]. split; [exact (proj1 (Hup (sql s) "a" "3" 0 0 Hin))|].
  exact (proj1 (Hput s "a" (VString "3") None 30 _ Hin eq_refl)).
Defined.

End PrimaryKey.

(** ** Truncation and clamping *)

Section NumberFacts.

Lemma Math_trunc_floor (q : Q) :
  (0 <= q)%Q -> Math_trunc q = Qnum q / Z.pos (Qden q).
Proof.
  unfold Qle, Math_trunc. cbn. intros H. apply Z.quot_div_nonneg; lia.
Qed.

Lemma Math_trunc_bounds (q : Q) (lo hi : Z) :
  0 <= lo -> (inject_Z lo <= q)%Q -> (q <= inject_Z hi)%Q ->
  lo <= Math_trunc q <= hi.
Proof.
  intros Hlo H1 H2. rewrite Math_trunc_floor.
  - unfold Qle in *. cbn in *. split.
    + apply Z.div_le_lower_bound; lia.
    + apply Z.div_le_upper_bound; lia.
  - apply Qle_trans with (inject_Z lo); [|exact H1]. unfold Qle; cbn. lia.
Qed.

Lemma Math_trunc_le (q : Q) : (0 <= q)%Q -> (inject_Z (Math_trunc q) <= q)%Q.
Proof.
  intros H. rewrite Math_trunc_floor by exact H.
  unfold Qle; cbn. rewrite Z.mul_1_r, Z.mul_comm. apply Z.mul_div_le. lia.
Qed.

Lemma clamp_bounds (n : Q) :
  (1 <= Math_min (Math_max n 1) (1000 # 1) <= 1000 # 1)%Q.
Proof.
  unfold Math_min, Math_max.
  destruct (Qle_bool n 1) eqn:E1.
  - cbn. split; discriminate.
  - destruct (Qle_bool n (1000 # 1)) eqn:E2.
    + apply Qle_bool_iff in E2. split; [|exact E2].
      destruct (Qlt_le_dec n 1) as [H|H]; [|exact H].
      apply Qlt_le_weak, Qle_bool_iff in H. congruence.
    + split; [discriminate|apply Qle_refl].
Qed.


End NumberFacts.

(** ** Listing keys *)

Section ListFacts.
Import Codec Sql DOKVS.

Lemma set_In (k : string) (v : Z) (m : JsMap.t) (e : string * Z) :
  In e (JsMap.set k v m) -> e = (k, v) \/ In e m.
Proof.
  induction m as [|[k' v'] m IH]; cbn.
  - intuition.
  - destruct (String.eqb k' k) eqn:E; cbn.
    + apply String.eqb_eq in E. subst k'. intuition.
    + intuition.
Qed.


Lemma set_fresh (k : string) (v : Z) (m : JsMap.t) :
  ~ In k (map fst m) -> JsMap.set k v m = m ++ [(k, v)].
Proof.
  induction m as [|[k' v'] m IH]; cbn; [trivial|].
  intros H. destruct (String.eqb k' k) eqn:E.
  - apply String.eqb_eq in E. tauto.
  - rewrite IH; tauto.
Qed.

Lemma fold_set_In (l : Datatypes.list (string * Z)) (m : JsMap.t) (e : string * Z) :
  In e (fold_left (fun m e => JsMap.set (fst e) (snd e) m) l m) ->
  In e m \/ In e l.
Proof.
  revert m. induction l as [|[k v] l IH]; cbn; intros m H; [auto|].
  apply IH in H as [H|H]; [|auto].
  apply set_In in H as [->|H]; auto.
Qed.


(** Entries with distinct keys make a map of just these entries. *)
Lemma fold_set_distinct (l : Datatypes.list (string * Z)) (m : JsMap.t) :
  NoDup (map fst (m ++ l)) ->
  fold_left (fun m e => JsMap.set (fst e) (snd e) m) l m = m ++ l.
Proof.
  revert m. induction l as [|[k v] l IH]; cbn; intros m H.
  - now rewrite app_nil_r.
  - assert (~ In k (map fst m)) as Hk.
    { rewrite map_app in H. cbn in H. apply NoDup_remove_2 in H.
      intro Hin. apply H. apply in_or_app. now left. }
    rewrite set_fresh by exact Hk.
    rewrite IH; rewrite <- app_assoc; [reflexivity|exact H].
Qed.

Lemma of_entries_distinct (l : Datatypes.list (string * Z)) :
  NoDup (map fst l) -> JsMap.of_entries l = l.
Proof. intros H. unfold JsMap.of_entries. now rewrite fold_set_distinct. Qed.

Lemma take_In (lim : Z) (rows : table) (r : Row) :
  In r (take lim rows) -> In r rows.
Proof.
  unfold take. destruct (lim <? 0); [trivial|].
  intros H. rewrite <- (firstn_skipn (Z.to_nat lim) rows).
  apply in_or_app. now left.
Qed.


Lemma take_all (lim : Z) (rows : table) :
  Z.of_nat (List.length rows) <= lim -> take lim rows = rows.
Proof.
  intros H. unfold take. destruct (lim <? 0); [trivial|].
  apply firstn_all2. lia.
Qed.

Lemma list_limit_range (o : option KVListOptions) :
  1 <= list_limit o <= 1000.
Proof.
  unfold list_limit.
  destruct (clamp_bounds (nullish (opt_field o limit) (1000 # 1))) as [H1 H2].
  apply Math_trunc_bounds; [lia|exact H1|exact H2].
Qed.

Lemma list_limit_default (o : option KVListOptions) :
  opt_field o limit = None -> list_limit o = 1000.
Proof. unfold list_limit. now intros ->. Qed.


(** The pattern [%] is matched by every string. *)
Lemma like_chars_any (k : string) : like_chars "%" k = true.
Proof. induction k as [|d k IH]; [reflexivity|exact IH]. Qed.

Lemma like_any (k : string) : like "%" k = true.
Proof. unfold like. cbn [until_nul Ascii.eqb]. apply like_chars_any. Qed.

Lemma lower_zero (c : ascii) : lower c = Ascii.zero -> c = Ascii.zero.
Proof.
  destruct c as [[] [] [] [] [] [] [] []]; vm_compute; intros H;
    try reflexivity; discriminate H.
Qed.

Lemma until_nul_prefix (p q : string) :
  Text.no_nul p = true -> until_nul (p ++ q) = (p ++ until_nul q)%string.
Proof.
  induction p as [|c p IH]; [reflexivity|].
  unfold Text.no_nul. cbn [Text.forall_chars append until_nul].
  intros H. apply andb_true_iff in H as [Hc Hp].
  apply negb_true_iff in Hc. rewrite Hc. f_equal. now apply IH.
Qed.

Lemma starts_with_nocase_until_nul (p k : string) :
  Text.no_nul p = true ->
  starts_with_nocase p (until_nul k) = starts_with_nocase p k.
Proof.
  revert k. induction p as [|c p IH]; intros k Hp; [reflexivity|].
  unfold Text.no_nul in Hp. cbn [Text.forall_chars] in Hp.
  apply andb_true_iff in Hp as [Hc Hp]. apply negb_true_iff in Hc.
  destruct k as [|d k]; [reflexivity|]. cbn [until_nul starts_with_nocase].
  destruct (Ascii.eqb d Ascii.zero) eqn:Ed.
  - apply Ascii.eqb_eq in Ed. subst d. cbn [starts_with_nocase].
    unfold eq_nocase. destruct (Ascii.eqb (lower c) (lower Ascii.zero)) eqn:E;
      [|reflexivity].
    apply Ascii.eqb_eq in E. apply lower_zero in E. subst c. discriminate Hc.
  - cbn [starts_with_nocase]. f_equal. now apply IH.
Qed.

(** A pattern made of a prefix without [%] and [_] followed by [%] is
    matched by the strings that start with the prefix, up to the case of
    ASCII letters. *)
Lemma like_chars_prefix (p k : string) :
  no_wildcard p = true ->
  like_chars (p ++ "%") k = starts_with_nocase p k.
Proof.
  revert k. induction p as [|c p IH]; intros k Hp.
  - apply like_chars_any.
  - cbn in Hp. apply andb_true_iff in Hp as [Hc Hp].
    apply andb_true_iff in Hc as [Hc1 Hc2].
    apply negb_true_iff in Hc1, Hc2.
    cbn. rewrite Hc1, Hc2. destruct k as [|d k]; [reflexivity|].
    now rewrite IH.
Qed.

Lemma like_prefix (p k : string) :
  no_wildcard p = true -> Text.no_nul p = true ->
  like (p ++ "%") k = starts_with_nocase p k.
Proof.
  intros Hw Hn. unfold like.
  rewrite until_nul_prefix by exact Hn. cbn [until_nul Ascii.eqb].
  rewrite like_chars_prefix by exact Hw.
  now apply starts_with_nocase_until_nul.
Qed.

Lemma insert_by_ttl_perm (r : Row) (rows : table) :
  Permutation (insert_by_ttl r rows) (r :: rows).
Proof.
  induction rows as [|x rows IH]; cbn; [reflexivity|].
  destruct (ttl r <=? ttl x); [reflexivity|].
  rewrite IH. apply perm_swap.
Qed.

Lemma sort_by_ttl_perm (rows : table) : Permutation (sort_by_ttl rows) rows.
Proof.
  induction rows as [|x rows IH]; cbn; [reflexivity|].
  rewrite insert_by_ttl_perm. now constructor.
Qed.

Lemma filter_split_perm {A : Type} (f : A -> bool) (l : Datatypes.list A) :
  Permutation (filter f l ++ filter (fun x => negb (f x)) l) l.
Proof.
  induction l as [|x l IH]; cbn; [reflexivity|].
  destruct (f x); cbn.
  - now constructor.
  - symmetry. apply Permutation_cons_app. now symmetry.
Qed.

(** The order of [#LIST] holds the rows it is given, each once. *)
Lemma index_order_perm (rows : table) : Permutation (index_order rows) rows.
Proof.
  unfold index_order. rewrite sort_by_ttl_perm. apply filter_split_perm.
Qed.

Lemma index_order_In (rows : table) (r : Row) :
  In r (index_order rows) <-> In r rows.
Proof.
  split; apply Permutation_in; [|symmetry]; apply index_order_perm.
Qed.

Lemma index_order_length (rows : table) :
  List.length (index_order rows) = List.length rows.
Proof. apply Permutation_length, index_order_perm. Qed.

Lemma unique_keys_index_order (rows : table) :
  unique_keys rows -> unique_keys (index_order rows).
Proof.
  unfold unique_keys. intros H.
  eapply Permutation_NoDup; [|exact H].
  apply Permutation_map. symmetry. apply index_order_perm.
Qed.

Lemma list_unfold (o : option KVListOptions) (i : option bool) (now : Z)
  (s : state) :
  fst (list o i now s)
  = JsMap.of_entries
      (map (fun r => (key r, ttl r))
         (take (list_limit o)
            (index_order
               (filter (listed (list_pattern o)
                          (if nullish i false then 0 else now))
                  (sql s))))).
Proof. reflexivity. Qed.

End ListFacts.

Section ListClaims.
Import Codec Sql DOKVS.




End ListClaims.

(** ** The throttled sweep *)

Section CleanupClaims.
Import Codec Sql DOKVS.

(** C6, as stated, fails at the boundary: at the very second held in
    [#timing] the sweep does not run, and a row past its expiry stays. *)
Lemma cleanup_waits_at_sweep_time :
  let s := mkState [mkRow "k" "v" 50 0] 86400 100 in
  100 >= timing s
  /\ cleanup 100 s = s
  /\ cleanup 100 s <> mkState [] 86400 (100 + 86400).
Proof. split; [cbn; lia|]. split; [reflexivity|discriminate]. Qed.

(** C6, amended. [#cleanup] at time [now] sweeps exactly when [now] is
    greater than [#timing]: then [#timing] becomes [now + #interval], the
    interval is kept, and the rows left are those whose ttl is not strictly
    between 0 and [now]; when [now] is at most [#timing] the instance is
    as it was.  The interval of a new instance is 86400. *)
Theorem cleanup_sweeps_after_timing (now : Z) (s : state) :
  (timing s < now ->
     timing (cleanup now s) = now + interval s
     /\ interval (cleanup now s) = interval s
     /\ sql (cleanup now s) = filter (fun r => negb (stale_at now r)) (sql s)
     /\ (forall r, In r (sql (cleanup now s))
                   <-> In r (sql s) /\ ~ (0 < ttl r < now)))
  /\ (now <= timing s -> cleanup now s = s)
  /\ interval initial = 86400.
Proof.
  split; [|split; [|reflexivity]].
  - intros Hlt. unfold cleanup.
    replace (timing s >=? now) with false
      by (symmetry; rewrite Z.geb_leb; now apply Z.leb_gt).
    cbn. split; [reflexivity|]. split; [reflexivity|]. split; [reflexivity|].
    intros r. rewrite filter_In, negb_true_iff, <- stale_at_spec.
    destruct (stale_at now r); intuition congruence.
  - intros Hle. unfold cleanup.
    now replace (timing s >=? now) with true by (symmetry; apply Z.geb_le, Hle).
Qed.

Lemma cleanup_sweeps_after_timing_witness :
  let s := mkState [mkRow "k" "v" 50 0; mkRow "p" "w" 0 0] 86400 100 in
  timing s < 101 /\ 100 <= timing s
  /\ cleanup 101 s = mkState [mkRow "p" "w" 0 0] 86400 86501
  /\ cleanup 100 s = s.
Proof.
  intros s.
  destruct (cleanup_sweeps_after_timing 101 s) as (Hrun & _).
  destruct (cleanup_sweeps_after_timing 100 s) as (_ & Hskip & _).
  split; [cbn; lia|]. split; [cbn; lia|]. split.
  - destruct Hrun as (Ht & Hi & Hq & _); [cbn; lia|].
    destruct (cleanup 101 s) as [q i t]. cbn in Ht, Hi, Hq. now subst.
  - apply Hskip. cbn; lia.
Defined.

(** C8, as stated, fails for [delete] and [clear]: with a sweep due and
    a row past its expiry in the table, neither of them runs the sweep;
    their tasks hold the one statement and [#timing] stays where it was. *)
Lemma delete_and_clear_do_not_sweep :
  let s := mkState [mkRow "old" "v" 50 0] 86400 0 in
  timing s < 100
  /\ cleanup 100 s = mkState [] 86400 86500
  /\ queued (Delete "a") 100 = Some [Exec (DELETE "a")]
  /\ step 100 (Delete "a") s = s
  /\ queued Clear 100 = Some [Exec CLEAR]
  /\ step 100 Clear s = mkState [] 86400 0.
Proof. split; [cbn; lia|]. repeat split; reflexivity. Qed.

(** C8, amended. A [put] that is accepted queues the upsert followed by
    the throttled sweep, so that the instance afterwards is the sweep
    applied to the upserted table.  [delete] and [clear] queue their one
    statement without the sweep and leave [#timing] and [#interval]
    alone.  [get] and [list] queue nothing and leave the instance as it
    was. *)
Theorem put_alone_triggers_sweep (now : Z) (s : state) :
  (forall k v e tk, queued (Put k v e) now = Some tk ->
     In Cleanup tk
     /\ exists r, tk = [Exec (UPSERT (key r) (val r) (ttl r) (vtype r)); Cleanup]
                  /\ step now (Put k v e) s
                     = cleanup now (with_sql s (upsert r (sql s))))
  /\ (forall k, ~ In Cleanup (delete k)
        /\ queued (Delete k) now = Some (delete k)
        /\ step now (Delete k) s
           = with_sql s (filter (fun r => negb (has_key k r)) (sql s)))
  /\ (~ In Cleanup clear
      /\ queued Clear now = Some clear
      /\ step now Clear s = with_sql s [])
  /\ (forall k, queued (Get k) now = None /\ step now (Get k) s = s)
  /\ (forall o i, queued (List o i) now = None /\ step now (List o i) s = s).
Proof.
  split; [|split; [|split; [|split]]].
  - intros k v e tk Hq. unfold step. rewrite Hq.
    unfold queued, put in Hq.
    destruct (negb _ && _); [discriminate|].
    destruct (toStoreValue v) as [v' vt]. injection Hq as <-.
    split; [cbn; auto|].
    exists (mkRow k v' (Math_trunc (nullish e 0%Q)) vt). split; reflexivity.
  - intros k. split; [|split; reflexivity].
    cbn. intros [H|[]]. discriminate H.
  - split; [|split; reflexivity]. cbn. intros [H|[]]. discriminate H.
  - intros k. split; [reflexivity|]. apply get_state.
  - intros o i. split; [reflexivity|]. apply list_state.
Qed.

Lemma put_alone_triggers_sweep_witness :
  let s := mkState [mkRow "old" "v" 50 0] 86400 0 in
  queued (Put "a" (VString "1") None) 100
  = Some [Exec (UPSERT "a" "1" 0 0); Cleanup]
  /\ In Cleanup [Exec (UPSERT "a" "1" 0 0); Cleanup]
  /\ step 100 (Put "a" (VString "1") None) s
     = mkState [mkRow "a" "1" 0 0] 86400 86500.
Proof.
  intros s.
  destruct (put_alone_triggers_sweep 100 s) as (Hput & _).
  destruct (Hput "a" (VString "1") None _ eq_refl) as (Hin & _).
  split; [reflexivity|]. split; [exact Hin|reflexivity].
Defined.

(** C9. [setCleanupInterval(i, reset)] with [i <= 0] leaves the instance
    as it was.  With [i > 0] the interval becomes [i] truncated, the table
    is kept, and [#timing] becomes the current time plus the new interval
    when [reset] is set and is kept otherwise. *)
Theorem setCleanupInterval_checks_sign (i : Q) (reset : option bool) (now : Z)
  (s : state) :
  ((i <= 0)%Q -> setCleanupInterval i reset now s = s)
  /\ ((0 < i)%Q ->
        interval (setCleanupInterval i reset now s) = Math_trunc i
        /\ sql (setCleanupInterval i reset now s) = sql s
        /\ (reset = Some true ->
              timing (setCleanupInterval i reset now s) = now + Math_trunc i)
        /\ (reset = Some false \/ reset = None ->
              timing (setCleanupInterval i reset now s) = timing s)).
Proof.
  unfold setCleanupInterval. split.
  - intros Hle. apply Qle_bool_iff in Hle. now rewrite Hle.
  - intros Hpos. destruct (Qle_bool i 0) eqn:E.
    + apply Qle_bool_iff in E. exfalso. exact (Qlt_not_le _ _ Hpos E).
    + repeat split.
      * now destruct (nullish reset false).
      * now destruct (nullish reset false).
      * now intros ->.
      * now intros [->| ->].
Qed.

Lemma setCleanupInterval_checks_sign_witness :
  (- (5 # 2) <= 0)%Q /\ (0 < 5 # 2)%Q
  /\ setCleanupInterval (- (5 # 2)) (Some true) 100 initial = initial
  /\ setCleanupInterval (5 # 2) (Some true) 100 initial = mkState [] 2 102
  /\ timing (setCleanupInterval (5 # 2) None 100 initial) = 0.
Proof.
  destruct (setCleanupInterval_checks_sign (- (5 # 2)) (Some true) 100 initial)
    as (Hneg & _).
  destruct (setCleanupInterval_checks_sign (5 # 2) None 100 initial)
    as (_ & Hpos).
  split; [discriminate|]. split; [reflexivity|]. split; [|split].
  - apply Hneg. discriminate.
  - reflexivity.
  - destruct Hpos as (_ & _ & _ & Hkeep); [reflexivity|].
    apply Hkeep. now right.
Defined.

End CleanupClaims.

(** ** The schema bootstrap *)

Section BootstrapClaims.
Import Bootstrap.

(** C7, as stated, fails on the order: the flag is put before the table
    and the index are created, not after.  Once the first call of
    [#createTable] is over, the flag is set and there is no table yet. *)
Lemma bootstrap_sets_flag_first :
  isTable fresh = false
  /\ initialize fresh <> [SqlExec TABLE; SqlExec INDEX; StoragePut "init" true]
  /\ initialize fresh = [StoragePut "init" true; SqlExec TABLE; SqlExec INDEX]
  /\ run (firstn 1 (initialize fresh)) fresh = Ret (mkCtx (Some true) false false).
Proof. split; [reflexivity|]. split; [discriminate|]. split; reflexivity. Qed.

Lemma run_createTable_init (c c' : ctx) :
  run createTable c = Ret c' -> init c' = Some true.
Proof.
  unfold createTable. cbn.
  destruct (has_index c); [discriminate|]. now intros [= <-].
Qed.

Lemma run_app (a b : list effect) (c : ctx) :
  run (a ++ b) c
  = match run a c with Ret c' => run b c' | Throw e => Throw e end.
Proof.
  revert c. induction a as [|e a IH]; intros c; cbn; [reflexivity|].
  destruct (apply c e); [apply IH|reflexivity].
Qed.

Lemma barrier_run_open (ms : list Barrier.move) (i : Barrier.instance) :
  Barrier.barrier i = Barrier.Open ->
  (forall x, In x (Barrier.seen (Barrier.run ms i)) -> x = Barrier.storage i)
  /\ Barrier.made (Barrier.run ms i) = []
  /\ Barrier.last (Barrier.run ms i) = i.
Proof.
  intros Ho. induction ms as [|[|] ms (IHs & IHm & IHl)]; cbn.
  - repeat split. intros x [].
  - unfold Barrier.advance. rewrite Ho. cbn. auto.
  - unfold Barrier.serve. rewrite Ho. repeat split; auto.
    intros x [<-|Hx]; auto.
Qed.

Lemma barrier_run_broken (ms : list Barrier.move) (i : Barrier.instance) (e : error) :
  Barrier.barrier i = Barrier.Broken e ->
  Barrier.seen (Barrier.run ms i) = []
  /\ Barrier.is_open (Barrier.last (Barrier.run ms i)) = false.
Proof.
  intros Hb. induction ms as [|[|] ms (IHs & IHo)]; cbn.
  - unfold Barrier.is_open. now rewrite Hb.
  - unfold Barrier.advance. rewrite Hb. cbn. auto.
  - unfold Barrier.serve. rewrite Hb. cbn. auto.
Qed.

(** While the barrier is up a request sees nothing; what requests see
    afterwards is the storage as the whole bootstrap leaves it. *)
Lemma barrier_run_blocked (ms : list Barrier.move) (c : ctx) :
  forall (i : Barrier.instance) (done rest : list effect),
    Barrier.barrier i = Barrier.Blocked rest ->
    initialize c = done ++ rest ->
    run done c = Ret (Barrier.storage i) ->
    (forall x, In x (Barrier.seen (Barrier.run ms i)) -> construct c = Ret x)
    /\ (Barrier.is_open (Barrier.last (Barrier.run ms i)) = true ->
          Barrier.made (Barrier.run ms i) = rest
          /\ construct c = Ret (Barrier.storage (Barrier.last (Barrier.run ms i)))).
Proof.
  induction ms as [|[|] ms IH]; intros i done rest Hg Hinit Hdone.
  - cbn. split; [intros x []|]. unfold Barrier.is_open. rewrite Hg. discriminate.
  - cbn [Barrier.run Barrier.seen Barrier.made Barrier.last]. unfold Barrier.advance. rewrite Hg.
    destruct rest as [|e rest].
    + cbn [fst snd].
      assert (construct c = Ret (Barrier.storage i)) as Hc.
      { unfold construct. now rewrite Hinit, app_nil_r. }
      destruct (barrier_run_open ms (Barrier.mkInstance (Barrier.storage i) Barrier.Open)
                  eq_refl) as (Hs & Hm & Hl).
      split.
      * intros x Hx. now rewrite (Hs x Hx).
      * intros _. rewrite Hm, Hl. auto.
    + destruct (apply (Barrier.storage i) e) as [c'|err] eqn:Ea; cbn [fst snd].
      * destruct (IH (Barrier.mkInstance c' (Barrier.Blocked rest)) (done ++ [e]) rest
                    eq_refl) as (Hs & Ho).
        -- now rewrite <- app_assoc.
        -- rewrite run_app, Hdone. cbn. now rewrite Ea.
        -- split; [exact Hs|]. intros Hopen.
           destruct (Ho Hopen) as (Hm & Hc). cbn. now rewrite Hm.
      * destruct (barrier_run_broken ms
                    (Barrier.mkInstance (Barrier.storage i) (Barrier.Broken err)) err
                    eq_refl) as (Hs & Ho).
        split; [rewrite Hs; intros x []|]. rewrite Ho. discriminate.
  - cbn [Barrier.run Barrier.seen Barrier.made Barrier.last]. unfold Barrier.serve. rewrite Hg.
    cbn [app]. now apply (IH i done rest).
Qed.

Lemma barrier_run_nothing_to_do (ms : list Barrier.move) (i : Barrier.instance) :
  Barrier.barrier i = Barrier.Blocked [] ->
  (forall x, In x (Barrier.seen (Barrier.run ms i)) -> x = Barrier.storage i)
  /\ Barrier.made (Barrier.run ms i) = []
  /\ Barrier.storage (Barrier.last (Barrier.run ms i)) = Barrier.storage i.
Proof.
  intros Hg. induction ms as [|[|] ms (IHs & IHm & IHl)]; cbn.
  - repeat split. intros x [].
  - unfold Barrier.advance. rewrite Hg. cbn [fst snd app].
    destruct (barrier_run_open ms (Barrier.mkInstance (Barrier.storage i) Barrier.Open)
                eq_refl) as (Hs & Hm & Hl).
    rewrite Hl. auto.
  - unfold Barrier.serve. rewrite Hg. cbn [app]. auto.
Qed.

(** On a storage whose flag is set no object of the life makes a call,
    and requests see the storage as it is. *)
Lemma lifetime_bootstrapped (lives : list (list Barrier.move)) (c : ctx) :
  isTable c = true ->
  (forall x, In x (Barrier.seen (Barrier.lifetime lives c)) -> x = c)
  /\ Barrier.made (Barrier.lifetime lives c) = []
  /\ Barrier.storage (Barrier.last (Barrier.lifetime lives c)) = c.
Proof.
  intros Hflag. induction lives as [|ms lives (IHs & IHm & IHl)].
  - cbn. repeat split. intros x [].
  - cbn [Barrier.lifetime Barrier.seen Barrier.made Barrier.last].
    assert (Barrier.barrier (Barrier.new c) = Barrier.Blocked []) as Hg
      by (unfold Barrier.new, initialize; now rewrite Hflag).
    destruct (barrier_run_nothing_to_do ms (Barrier.new c) Hg) as (Hs & Hm & Hl).
    cbn [Barrier.new Barrier.storage] in Hs, Hl. rewrite Hl, Hm, IHm.
    repeat split; auto.
    intros x Hx. apply in_app_or in Hx as [Hx|Hx]; auto.
Qed.

(** C7, amended. The bootstrap reads the flag first.  With the flag set
    it makes no call and the storage stays as it was.  With the flag unset
    it puts the flag, then creates the table, then the index; on a fresh
    storage this leaves the flag, the table and the index in place.
    After a bootstrap that succeeded, a later one makes no call.  The
    sequence runs under exclusive access: whatever requests arrive while
    it runs, each is held back, and the storage a request sees is the one
    that the whole bootstrap leaves, never a part of the schema; after a
    bootstrap that failed no request is served.  And it runs exactly once
    in the life of a store: over all the objects constructed one after the
    other from a fresh storage, each getting to the end of its bootstrap,
    the three calls are made once each, by the first, and every request
    sees the flag, the table and the index. *)
Theorem bootstrap_flag_then_schema :
  (forall c, isTable c = true -> initialize c = [] /\ construct c = Ret c)
  /\ (forall c, isTable c = false ->
        initialize c = [StoragePut "init" true; SqlExec TABLE; SqlExec INDEX])
  /\ construct fresh = Ret (mkCtx (Some true) true true)
  /\ (forall c c', construct c = Ret c' ->
        isTable c' = true /\ initialize c' = [] /\ construct c' = Ret c')
  /\ (forall ms c x,
        In x (Barrier.seen (Barrier.run ms (Barrier.new c))) -> construct c = Ret x)
  /\ (forall ms c e,
        construct c = Throw e -> Barrier.seen (Barrier.run ms (Barrier.new c)) = [])
  /\ (forall ms lives,
        Barrier.settled (ms :: lives) fresh = true ->
        Barrier.made (Barrier.lifetime (ms :: lives) fresh)
        = [StoragePut "init" true; SqlExec TABLE; SqlExec INDEX]
        /\ (forall x, In x (Barrier.seen (Barrier.lifetime (ms :: lives) fresh)) ->
              x = mkCtx (Some true) true true)).
Proof.
  assert (forall ms c x,
            In x (Barrier.seen (Barrier.run ms (Barrier.new c))) -> construct c = Ret x)
    as Hseen.
  { intros ms c x.
    now apply (barrier_run_blocked ms c (Barrier.new c) [] (initialize c)). }
  split; [|split; [|split; [|split; [|split; [|split]]]]].
  - intros c H. unfold construct, initialize. now rewrite H.
  - intros c H. unfold initialize. now rewrite H.
  - reflexivity.
  - intros c c' Hc.
    assert (isTable c' = true) as Hflag.
    { unfold construct, initialize in Hc. destruct (isTable c) eqn:E.
      - injection Hc as <-. exact E.
      - unfold isTable. now rewrite (run_createTable_init c c' Hc). }
    unfold construct, initialize. now rewrite Hflag.
  - exact Hseen.
  - intros ms c e Hfail.
    destruct (Barrier.seen (Barrier.run ms (Barrier.new c))) as [|x l] eqn:E; [reflexivity|].
    assert (construct c = Ret x) as Hx by (apply (Hseen ms); rewrite E; now left).
    congruence.
  - intros ms lives Hset. cbn [Barrier.settled] in Hset.
    apply andb_true_iff in Hset as [Hopen _].
    destruct (barrier_run_blocked ms fresh (Barrier.new fresh) [] createTable
                eq_refl eq_refl eq_refl) as (Hs & Ho).
    destruct (Ho Hopen) as (Hm & Hc).
    assert (Barrier.storage (Barrier.last (Barrier.run ms (Barrier.new fresh)))
            = mkCtx (Some true) true true) as Hfull.
    { change (construct fresh) with (Ret (mkCtx (Some true) true true)) in Hc.
      now injection Hc. }
    destruct (lifetime_bootstrapped lives (mkCtx (Some true) true true) eq_refl)
      as (Hs' & Hm' & _).
    cbn [Barrier.lifetime Barrier.seen Barrier.made]. rewrite Hfull, Hm, Hm', app_nil_r.
    split; [reflexivity|].
    intros x Hx. apply in_app_or in Hx as [Hx|Hx]; [|now apply Hs'].
    apply Hs in Hx. change (construct fresh) with (Ret (mkCtx (Some true) true true)) in Hx.
    now injection Hx.
Qed.

Lemma bootstrap_flag_then_schema_witness :
  let first := [Barrier.Request; Barrier.Advance; Barrier.Request; Barrier.Advance;
                Barrier.Advance; Barrier.Request; Barrier.Advance; Barrier.Request] in
  let later := [Barrier.Request; Barrier.Advance; Barrier.Request] in
  isTable (mkCtx (Some true) true true) = true
  /\ Barrier.settled [first; later] fresh = true
  /\ construct (mkCtx (Some true) true true) = Ret (mkCtx (Some true) true true)
  /\ Barrier.made (Barrier.lifetime [first; later] fresh)
     = [StoragePut "init" true; SqlExec TABLE; SqlExec INDEX]
  /\ Barrier.seen (Barrier.lifetime [first; later] fresh)
     = [mkCtx (Some true) true true; mkCtx (Some true) true true].
Proof.
  intros first later.
  destruct bootstrap_flag_then_schema as (Hset & _ & _ & _ & _ & _ & Honce).
  destruct (Hset (mkCtx (Some true) true true) eq_refl) as (_ & Hsame).
  destruct (Honce first [later] eq_refl) as (Hmade & _).
  split; [reflexivity|]. split; [reflexivity|]. split; [exact Hsame|].
  split; [exact Hmade|reflexivity].
Defined.

End BootstrapClaims.

(** ** Rows of reachable states *)

Section RowInvariant.
Import Codec Sql DOKVS.

Lemma step_rows_ok (now : Z) (c : call) (s : state) :
  0 <= now -> Forall row_ok (sql s) -> Forall row_ok (sql (step now c s)).
Proof.
  intros Hnow Hok.
  assert (forall r, ttl r = 0 \/ now <= ttl r ->
            vtype r = VTYPE_string \/ vtype r = VTYPE_buffer -> row_ok r) as Hrow.
  { intros r Ht Hv. split; [lia|exact Hv]. }
  destruct (sql_step now c s) as [[f ->]|(r & f & -> & Ht & Hv)].
  - now apply rows_ok_filter.
  - apply rows_ok_filter, rows_ok_upsert; auto.
Qed.

Lemma reachable_rows_ok (s : state) : reachable s -> Forall row_ok (sql s).
Proof.
  induction 1 as [|now c s _ IH Hnow]; [constructor|].
  now apply step_rows_ok.
Qed.

Lemma toUseValue_known_kind (v : string) (vt : Z) :
  vt = VTYPE_string \/ vt = VTYPE_buffer -> toUseValue v vt <> Ret None.
Proof.
  unfold toUseValue. intros [->| ->]; cbn; [discriminate|].
  destruct (str2bin v); discriminate.
Qed.

Lemma unique_keys_take (lim : Z) (t : table) :
  unique_keys t -> unique_keys (take lim t).
Proof.
  unfold take, unique_keys. destruct (lim <? 0); [trivial|].
  intros H. rewrite <- (firstn_skipn (Z.to_nat lim) t), map_app in H.
  now apply NoDup_app_remove_r in H.
Qed.

(** With every ttl at least 0, the filter of [#LIST] at the timestamp 0
    keeps every row whose key matches the pattern. *)
Lemma listed_at_zero (pat : string) (t : table) :
  Forall row_ok t ->
  filter (listed pat 0) t = filter (fun r => like pat (key r)) t.
Proof.
  intros Hok. apply filter_ext_in. intros r Hin.
  rewrite Forall_forall in Hok. destruct (Hok r Hin) as [Ht _].
  unfold listed. replace (live_at 0 r) with true; [apply andb_true_r|].
  symmetry. apply live_at_spec. now right.
Qed.

Lemma call_other_than_put_adds_no_row (now : Z) (c : call) (s : state) (r : Row) :
  (forall k v e, c <> Put k v e) ->
  In r (sql (step now c s)) -> In r (sql s).
Proof.
  intros Hc. destruct c as [k|k v e|k| |o i|i rs].
  - unfold step. now rewrite get_state.
  - now destruct (Hc k v e).
  - cbn. intros H. now apply filter_In in H.
  - intros [].
  - unfold step. now rewrite list_state.
  - unfold step. now rewrite sql_setCleanupInterval.
Qed.

(** C10, as stated, fails in its last part: [list] with [ignoreTtl] set
    still stops at its limit, so that with the limit 1 and two rows in the
    table the second row, which is there and matches, is not returned.
    (And a negative expiration above -1 is not rejected: it is truncated
    to the ttl 0.) *)
Lemma list_ignoring_ttl_stops_at_limit :
  let s := step 20 (Put "b" (VString "2") None)
             (step 10 (Put "a" (VString "1") None) initial) in
  let o := Some (mkOptions None (Some 1%Q)) in
  reachable s
  /\ In (mkRow "b" "2" 0 0) (sql s)
  /\ like (list_pattern o) "b" = true
  /\ fst (list o (Some true) 30 s) = [("a", 0)]
  /\ ~ In ("b", 0) (fst (list o (Some true) 30 s))
  /\ queued (Put "c" (VString "3") (Some (- (1 # 2))%Q)) 30
     = Some [Exec (UPSERT "c" "3" 0 0); Cleanup].
Proof.
  intros s o. split; [|split; [|split; [|split; [|split]]]].
  - unfold s. repeat (apply reach_step; [|lia]). apply reach_initial.
  - vm_compute. right. left. reflexivity.
  - reflexivity.
  - reflexivity.
  - vm_compute. intros [H|[]]. discriminate H.
  - reflexivity.
Qed.

Lemma take_length_min (lim : Z) (rows : table) :
  0 <= lim ->
  Z.of_nat (List.length (take lim rows))
  = Z.min lim (Z.of_nat (List.length rows)).
Proof.
  intros H. unfold take.
  replace (lim <? 0) with false by (symmetry; now apply Z.ltb_ge).
  rewrite length_firstn. lia.
Qed.

(** In a state the owner can bring about, a [list] that ignores the ttl
    yields the rows whose key matches, in the order of [#LIST] and up to
    the limit. *)
Lemma list_ignoring_ttl_rows (o : option KVListOptions) (now : Z) (s : state) :
  reachable s ->
  fst (list o (Some true) now s)
  = map (fun r => (key r, ttl r))
      (take (list_limit o)
         (index_order
            (filter (fun r => like (list_pattern o) (key r)) (sql s)))).
Proof.
  intros Hr. rewrite list_unfold. cbn [nullish].
  rewrite listed_at_zero by now apply reachable_rows_ok.
  apply of_entries_distinct. rewrite map_map. cbn [fst].
  apply unique_keys_take, unique_keys_index_order, unique_keys_filter,
    reachable_unique_keys, Hr.
Qed.

(** C10, amended. In every state the owner can bring about with calls
    made at non-negative times, every row has a ttl of 0 or more and the
    kind 0 or 1.  [put] at a non-negative time drops every expiration whose
    truncation is negative and writes only such rows, and no other call
    adds a row.  So the decoding of a stored row never falls out of the
    [switch], and [list] with [ignoreTtl] set, for a pattern within the
    limit of the engine and on a table whose keys the engine keeps as
    text, returns the rows whose key matches the pattern up to its limit:
    as many entries as the limit or the number of these rows, whichever
    is less, each of them such a row, and all of them when they are no
    more than the limit. *)
Theorem stored_rows_are_well_formed :
  (forall s, reachable s ->
     Forall (fun r => 0 <= ttl r /\ (vtype r = 0 \/ vtype r = 1)) (sql s))
  /\ (forall k v e now tk, 0 <= now -> queued (Put k v e) now = Some tk ->
        exists sv t vt, tk = [Exec (UPSERT k sv t vt); Cleanup]
                        /\ 0 <= t /\ (vt = 0 \/ vt = 1))
  /\ (forall k v e now, 0 <= now -> Math_trunc e < 0 ->
        queued (Put k v (Some e)) now = None)
  /\ (forall now c s r, (forall k v e, c <> Put k v e) ->
        In r (sql (step now c s)) -> In r (sql s))
  /\ (forall s r, reachable s -> In r (sql s) ->
        toUseValue (val r) (vtype r) <> Ret None)
  /\ (forall s o now, reachable s -> text_keys (sql s) ->
        like_pattern_fits (list_pattern o) = true ->
        Z.of_nat (JsMap.size (fst (list o (Some true) now s)))
        = Z.min (list_limit o)
            (Z.of_nat
               (List.length
                  (filter (fun r => like (list_pattern o) (key r)) (sql s))))
        /\ (forall k t, In (k, t) (fst (list o (Some true) now s)) ->
              exists r, In r (sql s) /\ key r = k /\ ttl r = t
                        /\ like (list_pattern o) k = true))
  /\ (forall s o now r, reachable s -> text_keys (sql s) ->
        like_pattern_fits (list_pattern o) = true ->
        Z.of_nat (List.length
                    (filter (fun r => like (list_pattern o) (key r)) (sql s)))
        <= list_limit o ->
        In r (sql s) -> like (list_pattern o) (key r) = true ->
        In (key r, ttl r) (fst (list o (Some true) now s))).
Proof.
  split; [|split; [|split; [|split; [|split; [|split]]]]].
  - intros s Hr. exact (reachable_rows_ok s Hr).
  - intros k v e now tk Hnow Hq. cbn [queued] in Hq.
    destruct (put_cases k v e now) as [(_ & _ & Hp)|(Hacc & Hvt & Hp)];
      [congruence|].
    rewrite Hp in Hq. injection Hq as <-.
    do 3 eexists. split; [reflexivity|]. split; [lia|exact Hvt].
  - intros k v e now Hnow Hneg.
    apply (step_put_rejected k v (Some e) now initial); cbn [nullish]; lia.
  - intros now c s r. apply call_other_than_put_adds_no_row.
  - intros s r Hr Hin. apply toUseValue_known_kind.
    pose proof (reachable_rows_ok s Hr) as Hok. rewrite Forall_forall in Hok.
    apply (Hok r Hin).
  - intros s o now Hr _ _. rewrite list_ignoring_ttl_rows by exact Hr. split.
    + unfold JsMap.size. rewrite length_map, take_length_min, index_order_length.
      * reflexivity.
      * pose proof (list_limit_range o). lia.
    + intros k t Hin. apply in_map_iff in Hin as (r & Hkt & Hin).
      injection Hkt as <- <-.
      apply take_In, index_order_In, filter_In in Hin as [Hin Hlike]. eauto.
  - intros s o now r Hr _ _ Hlen Hin Hlike.
    rewrite list_ignoring_ttl_rows by exact Hr.
    rewrite take_all by (now rewrite index_order_length).
    apply (in_map (fun r => (key r, ttl r))).
    apply index_order_In, filter_In. auto.
Qed.

Lemma stored_rows_are_well_formed_witness :
  let s := step 30 (Put "b" (VBuffer [x00; xff]) (Some (60 # 1)%Q))
             (step 10 (Put "a" (VString "1") None) initial) in
  reachable s /\ text_keys (sql s)
  /\ like_pattern_fits (list_pattern None) = true
  /\ Forall (fun r => 0 <= ttl r /\ (vtype r = 0 \/ vtype r = 1)) (sql s)
  /\ In (mkRow "b" "00ff" 60 1) (sql s)
  /\ toUseValue "00ff" 1 <> Ret None
  /\ Z.of_nat (JsMap.size (fst (list None (Some true) 1000 s))) = 2
  /\ In ("b", 60) (fst (list None (Some true) 1000 s)).
Proof.
  intros s.
  assert (reachable s) as Hr.
  { unfold s. repeat (apply reach_step; [|lia]). apply reach_initial. }
  assert (text_keys (sql s)) as Ht by (repeat constructor).
  destruct stored_rows_are_well_formed
    as (Hok & _ & _ & _ & Hdec & Hsize & Hall).
  assert (In (mkRow "b" "00ff" 60 1) (sql s)) as Hin
    by (vm_compute; right; left; reflexivity).
  split; [exact Hr|]. split; [exact Ht|]. split; [reflexivity|].
  split; [exact (Hok s Hr)|]. split; [exact Hin|].
  split; [exact (Hdec s _ Hr Hin)|]. split.
  - etransitivity; [exact (proj1 (Hsize s None 1000 Hr Ht eq_refl))|].
    vm_compute. reflexivity.
  - apply (Hall s None 1000 (mkRow "b" "00ff" 60 1) Hr Ht eq_refl);
      [vm_compute; discriminate|exact Hin|reflexivity].
Defined.

End RowInvariant.

(** * Further properties of the code *)

(** ** The stored text of a value *)

Section CodecShape.
Import Codec Text.

Lemma byte_two_lower_hex (b : byte) :
  exists c1 c2,
    padStart 2 "0"%char (toString16 (Byte.to_N b)) = String c1 (String c2 "")
    /\ is_lower_hex c1 = true /\ is_lower_hex c2 = true.
Proof.
  destruct b; do 2 eexists; (split; [reflexivity | split; reflexivity]).
Qed.

(** X1. [#bin2str] writes two characters per byte, every one of them a
    digit or a letter from [a] to [f]. *)
Theorem bin2str_is_lower_hex_of_double_length (b : Datatypes.list byte) :
  String.length (bin2str b) = (2 * List.length b)%nat
  /\ forall_chars is_lower_hex (bin2str b) = true.
Proof.
  induction b as [|x b [IHlen IHhex]]; [split; reflexivity|].
  rewrite bin2str_cons.
  destruct (byte_two_lower_hex x) as (c1 & c2 & -> & H1 & H2).
  cbn [append String.length forall_chars List.length]. rewrite IHlen, H1, H2, IHhex.
  split; [lia|reflexivity].
Qed.

(** X2. Two buffers that [#bin2str] writes as the same text are the same
    buffer. *)
Theorem bin2str_injective (a b : Datatypes.list byte) :
  bin2str a = bin2str b -> a = b.
Proof.
  intros H. rewrite <- (scan_pairs_bin2str a), <- (scan_pairs_bin2str b).
  now rewrite H.
Qed.

Lemma bin2str_injective_witness :
  bin2str [x00; x0a] = bin2str [x00; x0a] /\ [x00; x0a] = [x00; x0a].
Proof.
  split; [reflexivity|].
  apply (bin2str_injective [x00; x0a] [x00; x0a]). reflexivity.
Defined.

Lemma toUseValue_toStoreValue (v : KVValue) :
  v <> VBuffer [] ->
  toUseValue (fst (toStoreValue v)) (snd (toStoreValue v)) = Ret (Some v).
Proof.
  destruct v as [s|[|b bs]]; intros Hv.
  - reflexivity.
  - now destruct Hv.
  - cbn [toStoreValue fst snd]. unfold toUseValue. cbn [Z.eqb VTYPE_string VTYPE_buffer].
    now rewrite str2bin_bin2str_nonempty.
Qed.

(** X3. Every value but the buffer of length zero is decoded from what
    [#toStoreValue] made of it as the value it was: a string as that
    string, whatever its characters, and a buffer as that buffer. *)
Theorem stored_value_decodes_to_itself (v : KVValue) :
  v <> VBuffer [] ->
  toUseValue (fst (toStoreValue v)) (snd (toStoreValue v)) = Ret (Some v).
Proof. exact (toUseValue_toStoreValue v). Qed.

Lemma stored_value_decodes_to_itself_witness :
  VString "00ff" <> VBuffer []
  /\ toUseValue (fst (toStoreValue (VString "00ff")))
       (snd (toStoreValue (VString "00ff"))) = Ret (Some (VString "00ff")).
Proof.
  assert (VString "00ff" <> VBuffer []) as H by discriminate.
  split; [exact H|]. exact (stored_value_decodes_to_itself _ H).
Defined.

Lemma scan_pairs_length (n : nat) (s : string) :
  (String.length s <= n)%nat -> no_line_terminator s = true ->
  List.length (scan_pairs s) = Nat.div2 (String.length s).
Proof.
  revert s. induction n as [|n IH]; intros s Hn Hlt.
  - destruct s; [reflexivity|cbn in Hn; lia].
  - destruct s as [|a [|b rest]]; [reflexivity|reflexivity|].
    unfold no_line_terminator in Hlt. cbn [forall_chars] in Hlt.
    apply andb_true_iff in Hlt as [Ha Hlt]. apply andb_true_iff in Hlt as [Hb Hlt].
    apply negb_true_iff in Ha, Hb.
    cbn [scan_pairs]. rewrite Ha, Hb. cbn [List.length String.length Nat.div2].
    f_equal. apply IH; [cbn in Hn; lia|exact Hlt].
Qed.

(** X4. On a text without line terminators [#str2bin] raises a [TypeError]
    when the text has fewer than two characters, and otherwise returns one
    byte for each full pair of characters, leaving out a last odd
    character.  It never returns an empty buffer. *)
Theorem str2bin_reads_full_pairs (s : string) :
  (no_line_terminator s = true -> (String.length s < 2)%nat ->
     str2bin s = Throw (TypeError "Cannot read properties of null (reading 'map')"))
  /\ (no_line_terminator s = true -> (2 <= String.length s)%nat ->
        exists b, str2bin s = Ret b
                  /\ List.length b = Nat.div2 (String.length s))
  /\ (forall b, str2bin s = Ret b -> b <> []).
Proof.
  split; [|split].
  - intros _ Hlen. destruct s as [|a [|b rest]]; [reflexivity|reflexivity|].
    cbn in Hlen. lia.
  - intros Hlt Hlen. pose proof (scan_pairs_length _ s (le_n _) Hlt) as Hsc.
    unfold str2bin, match_pairs.
    destruct (scan_pairs s) as [|g gs] eqn:E.
    + destruct s as [|a [|b rest]]; cbn in Hlen, Hsc; try lia. discriminate Hsc.
    + eexists. split; [reflexivity|]. now rewrite length_map.
  - intros b. unfold str2bin, match_pairs.
    destruct (scan_pairs s); [discriminate|]. intros [= <-]. discriminate.
Qed.

Lemma str2bin_reads_full_pairs_witness :
  no_line_terminator "0a1" = true /\ (2 <= String.length "0a1")%nat
  /\ no_line_terminator "7" = true /\ (String.length "7" < 2)%nat
  /\ (exists b, str2bin "0a1" = Ret b /\ List.length b = 1%nat)
  /\ str2bin "7" = Throw (TypeError "Cannot read properties of null (reading 'map')").
Proof.
  destruct (str2bin_reads_full_pairs "0a1") as (_ & Hpairs & _).
  destruct (str2bin_reads_full_pairs "7") as (Hshort & _).
  split; [reflexivity|]. split; [cbn; lia|]. split; [reflexivity|].
  split; [cbn; lia|]. split.
  - apply Hpairs; [reflexivity|cbn; lia].
  - apply Hshort; [reflexivity|cbn; lia].
Defined.

End CodecShape.

(** ** How the operations of the store compose *)

Section StoreBehaviour.
Import Codec Sql DOKVS.

Lemma filter_filter_implied {A : Type} (f g : A -> bool) (l : Datatypes.list A) :
  (forall x, In x l -> f x = true -> g x = true) ->
  filter f (filter g l) = filter f l.
Proof.
  induction l as [|x l IH]; cbn; intros H; [reflexivity|].
  destruct (g x) eqn:Eg; cbn.
  - destruct (f x); rewrite IH; auto.
  - destruct (f x) eqn:Ef; [|apply IH; auto].
    rewrite (H x) in Eg; auto. discriminate.
Qed.

Lemma filter_keeps_all {A : Type} (g : A -> bool) (l : Datatypes.list A) :
  (forall x, In x l -> g x = true) -> filter g l = l.
Proof.
  induction l as [|x l IH]; cbn; intros H; [reflexivity|].
  rewrite (H x) by auto. f_equal. apply IH. auto.
Qed.

Lemma get_of_sql (k : string) (now : Z) (s s' : state) :
  sql s = sql s' -> fst (get k now s) = fst (get k now s').
Proof. intros H. rewrite !get_unfold. cbn [fst]. now rewrite H. Qed.

Lemma list_of_sql (o : option KVListOptions) (i : option bool) (now : Z)
  (s s' : state) :
  sql s = sql s' -> fst (list o i now s) = fst (list o i now s').
Proof. intros H. rewrite !list_unfold. now rewrite H. Qed.

Lemma live_not_stale (now now' : Z) (r : Row) :
  now <= now' -> live_at now' r = true -> negb (stale_at now r) = true.
Proof.
  intros Hle Hl. apply live_at_spec in Hl. apply negb_true_iff.
  destruct (stale_at now r) eqn:E; [|reflexivity].
  apply stale_at_spec in E. lia.
Qed.

Lemma list_entry_row (o : option KVListOptions) (i : option bool) (now : Z)
  (s : state) (k : string) (t : Z) :
  In (k, t) (fst (list o i now s)) ->
  exists r, In r (sql s) /\ key r = k /\ ttl r = t
            /\ listed (list_pattern o) (if nullish i false then 0 else now) r
               = true.
Proof.
  rewrite list_unfold. intros Hin.
  apply fold_set_In in Hin as [[]|Hin].
  apply in_map_iff in Hin as (r & Hr & Hin). injection Hr as <- <-.
  apply take_In, index_order_In, filter_In in Hin as [Hin Hl]. eauto.
Qed.

Lemma selects_upsert_other (r : Row) (k : string) (now : Z) (t : table) :
  key r <> k ->
  filter (selects k now) (upsert r t) = filter (selects k now) t.
Proof.
  intros Hne.
  assert (forall x, key x = key r -> selects k now x = false) as Hoff.
  { intros x Hx. unfold selects, has_key. rewrite Hx.
    apply String.eqb_neq in Hne. now rewrite Hne. }
  induction t as [|x t IH]; cbn.
  - now rewrite (Hoff r eq_refl).
  - destruct (String.eqb (key x) (key r)) eqn:E; cbn.
    + apply String.eqb_eq in E.
      now rewrite (Hoff x E), (Hoff (mkRow (key x) (val r) (ttl r) (vtype r)) E).
    + now rewrite IH.
Qed.

Lemma get_after_put_value (k : string) (v : KVValue) (e : option Q)
  (now now' : Z) (s : state) :
  let exp := Math_trunc (nullish e 0%Q) in
  v <> VBuffer [] ->
  exp = 0 \/ now <= exp ->
  exp = 0 \/ now' <= exp ->
  fst (get k now' (step now (Put k v e) s)) = Ret (Some v).
Proof.
  intros exp Hv Hacc Hlive.
  rewrite get_after_put by assumption.
  now apply toUseValue_toStoreValue.
Qed.

(** X5. A value other than the empty buffer, written by a [put] that is
    accepted, is what [get] of the key returns at every time up to the
    expiration, and at every time when there is none; this is so from any
    state of the table. *)
Theorem put_then_get_returns_value (k : string) (v : KVValue) (e : option Q)
  (now now' : Z) (s : state) :
  let exp := Math_trunc (nullish e 0%Q) in
  v <> VBuffer [] ->
  exp = 0 \/ now <= exp ->
  exp = 0 \/ now' <= exp ->
  fst (get k now' (step now (Put k v e) s)) = Ret (Some v).
Proof. exact (get_after_put_value k v e now now' s). Qed.

Lemma put_then_get_returns_value_witness :
  VBuffer [x00; xff; x10] <> VBuffer []
  /\ fst (get "x" 150
            (step 100 (Put "x" (VBuffer [x00; xff; x10]) (Some (inject_Z 200)))
               initial))
     = Ret (Some (VBuffer [x00; xff; x10])).
Proof.
  assert (VBuffer [x00; xff; x10] <> VBuffer []) as Hv by discriminate.
  split; [exact Hv|].
  apply (put_then_get_returns_value "x" _ (Some (inject_Z 200)) 100 150 initial Hv);
    right; cbn; lia.
Defined.

Lemma get_after_put_expired (k : string) (v : KVValue) (e : option Q)
  (now now' : Z) (s : state) :
  let exp := Math_trunc (nullish e 0%Q) in
  unique_keys (sql s) ->
  exp <> 0 -> now <= exp -> exp < now' ->
  fst (get k now' (step now (Put k v e) s)) = Ret None.
Proof.
  intros exp Hu Hnz Hacc Hpast.
  pose proof (first_key_after_put k v e now s (or_intror Hacc)) as Hf.
  apply find_some in Hf as [Hin Hk]. unfold has_key in Hk. cbn in Hk.
  rewrite get_unfold. cbn [fst].
  rewrite (select_present _ k now' _ (step_unique_keys now _ s Hu) Hin eq_refl).
  unfold live_at. cbn [ttl]. fold exp.
  replace (exp =? 0) with false by (symmetry; now apply Z.eqb_neq).
  replace (exp >=? now') with false
    by (symmetry; rewrite Z.geb_leb; now apply Z.leb_gt).
  reflexivity.
Qed.

(** X6. Once the expiration of an accepted [put] has passed, [get] of the
    key returns [undefined], whether or not a sweep has removed the
    row. *)
Theorem get_after_expiration_is_absent (k : string) (v : KVValue) (e : option Q)
  (now now' : Z) (s : state) :
  let exp := Math_trunc (nullish e 0%Q) in
  unique_keys (sql s) ->
  exp <> 0 -> now <= exp -> exp < now' ->
  fst (get k now' (step now (Put k v e) s)) = Ret None.
Proof. exact (get_after_put_expired k v e now now' s). Qed.

Lemma get_after_expiration_is_absent_witness :
  unique_keys (sql initial)
  /\ Math_trunc (inject_Z 200) <> 0 /\ 100 <= Math_trunc (inject_Z 200)
  /\ Math_trunc (inject_Z 200) < 201
  /\ fst (get "x" 201 (step 100 (Put "x" (VString "v") (Some (inject_Z 200)))
                         initial)) = Ret None.
Proof.
  assert (unique_keys (sql initial)) as Hu by constructor.
  split; [exact Hu|]. split; [discriminate|]. split; [cbn; lia|].
  split; [reflexivity|].
  apply (get_after_expiration_is_absent "x" (VString "v") (Some (inject_Z 200))
           100 201 initial Hu); cbn; lia.
Defined.

(** X7. After [delete] of a key, [get] of that key returns [undefined]
    and no [list] holds the key, from any state and at any time.  [get] of
    another key is as before, when one of the two keys is one that the
    engine keeps as text.  And when the key is such a key and the table
    holds no row of it, the instance stays as it was. *)
Theorem delete_removes_only_its_key (k : string) (now now' : Z) (s : state) :
  fst (get k now' (step now (Delete k) s)) = Ret None
  /\ (forall o i t, ~ In (k, t) (fst (list o i now' (step now (Delete k) s))))
  /\ (forall k', k' <> k -> text_key k = true \/ text_key k' = true ->
        fst (get k' now' (step now (Delete k) s)) = fst (get k' now' s))
  /\ (text_key k = true -> (forall r, In r (sql s) -> key r <> k) ->
        step now (Delete k) s = s).
Proof.
  assert (sql (step now (Delete k) s)
          = filter (fun r => negb (has_key k r)) (sql s)) as Hsql by reflexivity.
  assert (forall r, In r (sql (step now (Delete k) s)) -> key r <> k) as Hgone.
  { intros r Hin. rewrite Hsql in Hin. apply filter_In in Hin as [_ Hk].
    apply negb_true_iff in Hk. now apply String.eqb_neq in Hk. }
  split; [|split; [|split]].
  - rewrite get_unfold. cbn [fst]. now rewrite select_absent.
  - intros o i t Hin.
    apply list_entry_row in Hin as (r & Hin & Hk & _). exact (Hgone r Hin Hk).
  - intros k' Hne _. rewrite !get_unfold. cbn [fst]. rewrite Hsql.
    rewrite filter_filter_implied; [reflexivity|].
    intros r _ Hsel. unfold selects, has_key in *.
    apply andb_true_iff in Hsel as [Hk _]. apply String.eqb_eq in Hk.
    apply negb_true_iff, String.eqb_neq. congruence.
  - intros _ Hnone. unfold step. cbn.
    rewrite filter_keeps_all; [apply with_sql_same|].
    intros r Hin. apply negb_true_iff, String.eqb_neq. now apply Hnone.
Qed.

Lemma delete_removes_only_its_key_witness :
  let s := mkState [mkRow "user:1" "a" 0 0; mkRow "user:2" "b" 0 0] 86400 0 in
  "user:2" <> "user:1" /\ text_key "user:1" = true
  /\ text_key "guest" = true
  /\ (forall r, In r (sql s) -> key r <> "guest")
  /\ sql (step 5 (Delete "user:1") s) = [mkRow "user:2" "b" 0 0]
  /\ fst (get "user:2" 7 (step 5 (Delete "user:1") s)) = Ret (Some (VString "b"))
  /\ step 5 (Delete "guest") s = s.
Proof.
  intros s.
  destruct (delete_removes_only_its_key "user:1" 5 7 s) as (_ & _ & Hother & _).
  destruct (delete_removes_only_its_key "guest" 5 7 s) as (_ & _ & _ & Hnone).
  assert ("user:2" <> "user:1") as Hne by discriminate.
  assert (forall r, In r (sql s) -> key r <> "guest") as H.
  { intros r [<-|[<-|[]]]; discriminate. }
  split; [exact Hne|]. split; [reflexivity|]. split; [reflexivity|].
  split; [exact H|]. split; [reflexivity|]. split.
  - rewrite (Hother "user:2" Hne (or_introl eq_refl)). reflexivity.
  - exact (Hnone eq_refl H).
Defined.

(** X8. After [clear] every [get] returns [undefined] and every [list],
    also one that ignores the ttl, is empty, while the interval and the
    time of the next sweep are kept. *)
Theorem clear_empties_the_store (now now' : Z) (s : state) :
  (forall k, fst (get k now' (step now Clear s)) = Ret None)
  /\ (forall o i, fst (list o i now' (step now Clear s)) = [])
  /\ interval (step now Clear s) = interval s
  /\ timing (step now Clear s) = timing s.
Proof.
  split; [|split; [|split]]; try reflexivity.
  intros o i. rewrite list_unfold. cbn [step queued clear run_task fold_left
    run_action exec fst with_sql sql filter].
  unfold take. destruct (list_limit o <? 0); [reflexivity|].
  now rewrite firstn_nil.
Qed.

Lemma reads_after_cleanup (now now' : Z) (s : state) :
  now <= now' ->
  (forall k, fst (get k now' (cleanup now s)) = fst (get k now' s))
  /\ (forall o, fst (list o None now' (cleanup now s)) = fst (list o None now' s))
  /\ (forall o, fst (list o (Some false) now' (cleanup now s))
                = fst (list o (Some false) now' s)).
Proof.
  intros Hle.
  assert (forall f : Row -> bool,
            (forall r, f r = true -> live_at now' r = true) ->
            filter f (sql (cleanup now s)) = filter f (sql s)) as Hsame.
  { intros f Hf. rewrite sql_cleanup. destruct (timing s >=? now); [reflexivity|].
    apply filter_filter_implied. intros r _ Hr.
    apply (live_not_stale now now'); auto. }
  assert (forall pat r, listed pat now' r = true -> live_at now' r = true) as Hl.
  { intros pat r H. unfold listed in H. now apply andb_true_iff in H. }
  split; [|split].
  - intros k. rewrite !get_unfold. cbn [fst]. rewrite Hsame; [reflexivity|].
    intros r H. unfold selects in H. now apply andb_true_iff in H.
  - intros o. rewrite !list_unfold. cbn [nullish]. now rewrite (Hsame _ (Hl _)).
  - intros o. rewrite !list_unfold. cbn [nullish]. now rewrite (Hsame _ (Hl _)).
Qed.

(** X9. A sweep does not show in what is read afterwards: for a sweep at
    a time [now] and a read at a time [now'] not before it, [get] and a
    [list] that does not ignore the ttl return what they would have
    returned without the sweep. *)
Theorem sweep_is_invisible_to_reads (now now' : Z) (s : state) :
  now <= now' ->
  (forall k, fst (get k now' (cleanup now s)) = fst (get k now' s))
  /\ (forall o, fst (list o None now' (cleanup now s)) = fst (list o None now' s))
  /\ (forall o, fst (list o (Some false) now' (cleanup now s))
                = fst (list o (Some false) now' s)).
Proof. exact (reads_after_cleanup now now' s). Qed.

Lemma sweep_is_invisible_to_reads_witness :
  let s := mkState [mkRow "old" "v" 50 0; mkRow "new" "w" 500 0] 86400 0 in
  100 <= 120
  /\ sql (cleanup 100 s) = [mkRow "new" "w" 500 0]
  /\ fst (get "old" 120 (cleanup 100 s)) = fst (get "old" 120 s)
  /\ fst (list None None 120 (cleanup 100 s)) = fst (list None None 120 s).
Proof.
  intros s.
  assert (100 <= 120) as Hle by lia.
  destruct (sweep_is_invisible_to_reads 100 120 s Hle) as (Hget & Hlist & _).
  split; [exact Hle|]. split; [reflexivity|]. split; [apply Hget|apply Hlist].
Defined.

(** X10. A [put] on one key changes what [get] returns for no other
    key, when one of the two keys is one that the engine keeps as text: at
    every time not before the write, [get] of the other key returns what
    it returned without the write, whether the write was accepted or
    dropped and whether or not it swept. *)
Theorem put_leaves_other_keys (k k' : string) (v : KVValue) (e : option Q)
  (now now' : Z) (s : state) :
  k' <> k -> text_key k = true \/ text_key k' = true -> now <= now' ->
  fst (get k' now' (step now (Put k v e) s)) = fst (get k' now' s).
Proof.
  intros Hne _ Hle.
  destruct (put_cases k v e now) as [(Hnz & Hlt & _)|(Hacc & _)].
  - now destruct (step_put_rejected k v e now s Hnz Hlt) as [_ ->].
  - rewrite step_put_accepted by exact Hacc.
    destruct (reads_after_cleanup now now'
                (with_sql s
                   (upsert (mkRow k (fst (toStoreValue v))
                              (Math_trunc (nullish e 0%Q)) (snd (toStoreValue v)))
                      (sql s))) Hle) as (-> & _).
    rewrite !get_unfold. cbn [fst with_sql sql].
    rewrite selects_upsert_other; [reflexivity|]. cbn. congruence.
Qed.

Lemma put_leaves_other_keys_witness :
  let s := mkState [mkRow "b" "w" 0 0] 86400 0 in
  "b" <> "a" /\ text_key "a" = true /\ 100 <= 100
  /\ fst (get "b" 100 (step 100 (Put "a" (VString "1") None) s))
     = Ret (Some (VString "w")).
Proof.
  intros s.
  assert ("b" <> "a") as Hne by discriminate.
  split; [exact Hne|]. split; [reflexivity|]. split; [lia|].
  rewrite (put_leaves_other_keys "a" "b" (VString "1") None 100 100 s Hne
             (or_introl eq_refl)); [reflexivity|lia].
Defined.

End StoreBehaviour.

(** ** The sweep over time *)

Section SweepBehaviour.
Import Codec Sql DOKVS.

Lemma Math_trunc_nonneg (q : Q) : (0 <= q)%Q -> 0 <= Math_trunc q.
Proof.
  unfold Qle, Math_trunc. cbn. intros H. apply Z.quot_pos; lia.
Qed.

Lemma interval_cleanup (now : Z) (s : state) :
  interval (cleanup now s) = interval s.
Proof. unfold cleanup. now destruct (timing s >=? now). Qed.

Lemma interval_step (now : Z) (c : call) (s : state) :
  0 <= interval s -> 0 <= interval (step now c s).
Proof.
  intros H. destruct c as [k|k v e|k| |o i|i r]; unfold step.
  - now rewrite get_state.
  - unfold queued, put. destruct (negb _ && _); [exact H|].
    destruct (toStoreValue v). cbn. now rewrite interval_cleanup.
  - exact H.
  - exact H.
  - now rewrite list_state.
  - unfold setCleanupInterval. destruct (Qle_bool i 0) eqn:E; [exact H|].
    assert (0 <= Math_trunc i).
    { apply Math_trunc_nonneg. destruct (Qlt_le_dec 0 i) as [Hp|Hn].
      - now apply Qlt_le_weak.
      - apply Qle_bool_iff in Hn. congruence. }
    now destruct (nullish r false).
Qed.

Lemma reachable_interval_nonneg (s : state) : reachable s -> 0 <= interval s.
Proof.
  induction 1 as [|now c s _ IH _]; [cbn; lia|]. now apply interval_step.
Qed.

(** X11. In every state the owner can bring about the interval is not
    negative.  Once a sweep has run at a time [now], a further call of
    [#cleanup] at any time up to [now] plus the interval, the time [now]
    itself included, changes nothing: no second sweep runs within the
    interval. *)
Theorem no_second_sweep_within_interval (now now' : Z) (s : state) :
  reachable s -> timing s < now -> now' <= now + interval s ->
  0 <= interval s
  /\ timing (cleanup now s) = now + interval s
  /\ cleanup now' (cleanup now s) = cleanup now s
  /\ cleanup now (cleanup now s) = cleanup now s.
Proof.
  intros Hr Hdue Hwithin.
  pose proof (reachable_interval_nonneg s Hr) as Hi.
  assert (timing (cleanup now s) = now + interval s) as Ht.
  { unfold cleanup.
    replace (timing s >=? now) with false
      by (symmetry; rewrite Z.geb_leb; now apply Z.leb_gt).
    reflexivity. }
  assert (forall t, t <= now + interval s ->
            cleanup t (cleanup now s) = cleanup now s) as Hskip.
  { intros t Hle. unfold cleanup at 1. rewrite Ht.
    now replace (now + interval s >=? t) with true
      by (symmetry; now apply Z.geb_le). }
  split; [exact Hi|]. split; [exact Ht|]. split; apply Hskip; lia.
Qed.

Lemma no_second_sweep_within_interval_witness :
  reachable (step 50 (Delete "a") initial)
  /\ timing (step 50 (Delete "a") initial) < 100
  /\ 86500 <= 100 + interval (step 50 (Delete "a") initial)
  /\ cleanup 86500 (cleanup 100 (step 50 (Delete "a") initial))
     = cleanup 100 (step 50 (Delete "a") initial).
Proof.
  assert (reachable (step 50 (Delete "a") initial)) as Hr
    by (apply reach_step; [apply reach_initial|lia]).
  split; [exact Hr|]. split; [cbn; lia|]. split; [cbn; lia|].
  apply (no_second_sweep_within_interval 100 86500 _ Hr); cbn; lia.
Defined.

(** X12. Right after an accepted [put] that found the sweep due, every
    row of the table is live at the time of the write: the table holds
    nothing that a [list] ignoring the ttl would show and a plain [list]
    would hide. *)
Theorem rows_are_live_after_sweeping_put (k : string) (v : KVValue)
  (e : option Q) (now : Z) (s : state) :
  reachable s -> 0 <= now -> timing s < now ->
  queued (Put k v e) now <> None ->
  forall r, In r (sql (step now (Put k v e) s)) -> ttl r = 0 \/ now <= ttl r.
Proof.
  intros Hr Hnow Hdue Hq r Hin.
  pose proof (reachable_rows_ok _ (reach_step now (Put k v e) s Hr Hnow)) as Hok.
  rewrite Forall_forall in Hok. destruct (Hok r Hin) as [Hge _].
  destruct (put_cases k v e now) as [(_ & _ & Hp)|(Hacc & _)];
    [now destruct Hq|].
  rewrite step_put_accepted, sql_cleanup in Hin by exact Hacc.
  cbn [with_sql timing] in Hin.
  replace (timing s >=? now) with false in Hin
    by (symmetry; rewrite Z.geb_leb; now apply Z.leb_gt).
  apply filter_In in Hin as [_ Hst]. apply negb_true_iff in Hst.
  destruct (Z.eq_dec (ttl r) 0) as [Hz|Hnz]; [now left|right].
  destruct (Z_lt_le_dec (ttl r) now) as [Hlt|Hle]; [|exact Hle].
  assert (stale_at now r = true) by (apply stale_at_spec; lia). congruence.
Qed.

Lemma rows_are_live_after_sweeping_put_witness :
  let s := step 10 (Put "old" (VString "v") (Some (inject_Z 20))) initial in
  let s' := setCleanupInterval 1 (Some true) 10 s in
  reachable s' /\ 0 <= 100 /\ timing s' < 100
  /\ queued (Put "a" (VString "1") None) 100 <> None
  /\ sql (step 100 (Put "a" (VString "1") None) s') = [mkRow "a" "1" 0 0]
  /\ (forall r, In r (sql (step 100 (Put "a" (VString "1") None) s')) ->
        ttl r = 0 \/ 100 <= ttl r).
Proof.
  intros s s'.
  assert (reachable s') as Hr.
  { apply (reach_step 10 (SetCleanupInterval 1 (Some true))); [|lia].
    apply reach_step; [apply reach_initial|lia]. }
  assert (queued (Put "a" (VString "1") None) 100 <> None) as Hq by discriminate.
  assert (timing s' < 100) as Hdue by (cbn; lia).
  pose proof (rows_are_live_after_sweeping_put "a" (VString "1") None 100 s'
                Hr ltac:(lia) Hdue Hq) as Hlive.
  split; [exact Hr|]. split; [lia|]. split; [exact Hdue|]. split; [exact Hq|].
  split; [reflexivity|exact Hlive].
Defined.

End SweepBehaviour.

(** ** What [list] returns *)

Section ListBehaviour.
Import Codec Sql DOKVS.



(** Without a limit, on a table of at most 1000 rows with its primary
    key, [#LIST] with a prefix free of [%], [_] and NUL yields the live
    rows whose key starts with the prefix, in its own order. *)
Lemma list_live_rows_with_prefix (o : option KVListOptions)
  (now : Z) (s : state) :
  let p := nullish (opt_field o prefix) "" in
  no_wildcard p = true -> Text.no_nul p = true ->
  opt_field o limit = None ->
  unique_keys (sql s) ->
  (List.length (sql s) <= 1000)%nat ->
  fst (list o None now s)
  = map (fun r => (key r, ttl r))
      (index_order
         (filter (fun r => starts_with_nocase p (key r) && live_at now r)
            (sql s))).
Proof.
  intros p Hp Hnul Hlim Hu Hlen.
  assert (list_pattern o = (p ++ "%")%string) as Hpat.
  { unfold list_pattern. fold p. destruct (opt_field o prefix) as [x|]; [|reflexivity].
    cbn [nullish] in p. destruct (String.eqb x "%") eqn:E; [|reflexivity].
    apply String.eqb_eq in E. subst p x. discriminate Hp. }
  rewrite list_unfold, Hpat, (list_limit_default o Hlim). cbn [nullish].
  assert (filter (listed (p ++ "%") now) (sql s)
          = filter (fun r => starts_with_nocase p (key r) && live_at now r) (sql s))
    as ->.
  { apply filter_ext. intros r. unfold listed. now rewrite like_prefix. }
  rewrite take_all.
  - apply of_entries_distinct. rewrite map_map. cbn [fst].
    now apply unique_keys_index_order, unique_keys_filter.
  - rewrite index_order_length.
    etransitivity; [apply inj_le, filter_length_le|]. lia.
Qed.

(** X15. Without a limit, with a prefix that holds no [%], no [_] and no
    NUL (or with none) and whose pattern is within the limit of the
    engine, on a table of at most 1000 rows with its primary key whose
    keys the engine keeps as text, [list] returns the live rows whose key
    starts with the prefix up to the case of ASCII letters, no more and no
    fewer, each with its ttl. *)
Theorem list_returns_every_live_row_with_prefix (o : option KVListOptions)
  (now : Z) (s : state) :
  let p := nullish (opt_field o prefix) "" in
  no_wildcard p = true -> Text.no_nul p = true ->
  like_pattern_fits (list_pattern o) = true ->
  opt_field o limit = None ->
  unique_keys (sql s) -> text_keys (sql s) ->
  (List.length (sql s) <= 1000)%nat ->
  (forall k t,
     In (k, t) (fst (list o None now s))
     <-> exists r, In r (sql s) /\ key r = k /\ ttl r = t
                   /\ starts_with_nocase p k = true /\ (t = 0 \/ now <= t))
  /\ JsMap.size (fst (list o None now s))
     = List.length
         (filter (fun r => starts_with_nocase p (key r) && live_at now r)
            (sql s)).
Proof.
  intros p Hp Hnul _ Hlim Hu _ Hlen.
  rewrite (list_live_rows_with_prefix o now s Hp Hnul Hlim Hu Hlen). fold p.
  split.
  - intros k t. rewrite in_map_iff. split.
    + intros (r & Hkt & Hin). injection Hkt as <- <-.
      apply index_order_In, filter_In in Hin as [Hin Hsel].
      apply andb_true_iff in Hsel as [Hstart Hlive].
      apply live_at_spec in Hlive. eauto 6.
    + intros (r & Hin & <- & <- & Hstart & Hlive).
      exists r. split; [reflexivity|].
      apply index_order_In, filter_In. split; [exact Hin|].
      rewrite Hstart. now apply live_at_spec.
  - unfold JsMap.size. now rewrite length_map, index_order_length.
Qed.

Lemma list_returns_every_live_row_with_prefix_witness :
  let s := mkState [mkRow "key1" "1" 0 0; mkRow "Key2" "2" 50 0;
                    mkRow "key3" "3" 20 0; mkRow "_key4" "4" 0 1] 86400 0 in
  let o := Some (mkOptions (Some "key") None) in
  no_wildcard "key" = true /\ Text.no_nul "key" = true
  /\ like_pattern_fits (list_pattern o) = true
  /\ opt_field o limit = None
  /\ unique_keys (sql s) /\ text_keys (sql s)
  /\ (List.length (sql s) <= 1000)%nat
  /\ In ("Key2", 50) (fst (list o None 40 s))
  /\ JsMap.size (fst (list o None 40 s)) = 2%nat.
Proof.
  intros s o.
  assert (unique_keys (sql s)) as Hu.
  { unfold unique_keys; cbn. repeat constructor; cbn; intuition discriminate. }
  assert (text_keys (sql s)) as Ht by (repeat constructor).
  assert (List.length (sql s) <= 1000)%nat as Hlen by (cbn; lia).
  destruct (list_returns_every_live_row_with_prefix o 40 s eq_refl eq_refl
              eq_refl eq_refl Hu Ht Hlen) as (Hiff & Hsize).
  split; [reflexivity|]. split; [reflexivity|]. split; [reflexivity|].
  split; [reflexivity|]. split; [exact Hu|]. split; [exact Ht|].
  split; [exact Hlen|]. split.
  - apply Hiff. exists (mkRow "Key2" "2" 50 0).
    split; [cbn; auto|]. split; [reflexivity|]. split; [reflexivity|].
    split; [reflexivity|right; lia].
  - rewrite Hsize. reflexivity.
Defined.

Lemma length_upsert (r : Row) (t : table) :
  (List.length (upsert r t) <= S (List.length t))%nat.
Proof.
  induction t as [|x t IH]; cbn; [lia|].
  destruct (String.eqb (key x) (key r)); cbn; lia.
Qed.

Lemma length_step_put (k : string) (v : KVValue) (e : option Q) (now : Z)
  (s : state) :
  (List.length (sql (step now (Put k v e) s)) <= S (List.length (sql s)))%nat.
Proof.
  destruct (put_cases k v e now) as [(Hnz & Hlt & _)|(Hacc & _)].
  - destruct (step_put_rejected k v e now s Hnz Hlt) as [_ ->]. lia.
  - rewrite step_put_accepted, sql_cleanup by exact Hacc. cbn [with_sql sql timing].
    match goal with |- context [upsert ?r (sql s)] =>
      pose proof (length_upsert r (sql s)) as Hup end.
    destruct (timing s >=? now); [exact Hup|].
    etransitivity; [apply filter_length_le|exact Hup].
Qed.

(** X22. On a table with its primary key and fewer than 1000 rows, a key
    that the engine keeps as text, written by an accepted [put], is in
    every later [list] without limit whose prefix it starts with, mapped
    to the expiration written, for as long as that expiration allows; the
    prefix holds no [%], no [_] and no NUL and its pattern is within the
    limit of the engine. *)
Theorem put_then_list_shows_key (k : string) (v : KVValue) (e : option Q)
  (o : option KVListOptions) (now now' : Z) (s : state) :
  let exp := Math_trunc (nullish e 0%Q) in
  let p := nullish (opt_field o prefix) "" in
  text_key k = true ->
  unique_keys (sql s) -> (List.length (sql s) < 1000)%nat ->
  exp = 0 \/ now <= exp -> exp = 0 \/ now' <= exp ->
  no_wildcard p = true -> Text.no_nul p = true ->
  like_pattern_fits (list_pattern o) = true ->
  opt_field o limit = None ->
  starts_with_nocase p k = true ->
  In (k, exp) (fst (list o None now' (step now (Put k v e) s))).
Proof.
  intros exp p _ Hu Hlen Hacc Hlive Hp Hnul _ Hlim Hstart.
  pose proof (first_key_after_put k v e now s Hacc) as Hf. fold exp in Hf.
  apply find_some in Hf as [Hin _].
  rewrite list_live_rows_with_prefix.
  - change (k, exp) with ((fun r => (key r, ttl r))
                           (mkRow k (fst (toStoreValue v)) exp (snd (toStoreValue v)))).
    apply in_map. apply index_order_In, filter_In.
    split; [exact Hin|]. cbn [key ttl]. fold p.
    rewrite Hstart. apply live_at_spec. exact Hlive.
  - exact Hp.
  - exact Hnul.
  - exact Hlim.
  - now apply step_unique_keys.
  - pose proof (length_step_put k v e now s). lia.
Qed.

Lemma put_then_list_shows_key_witness :
  let s := mkState [mkRow "user:1" "a" 0 0] 86400 0 in
  let o := Some (mkOptions (Some "user:") None) in
  text_key "user:2" = true
  /\ unique_keys (sql s) /\ (List.length (sql s) < 1000)%nat
  /\ no_wildcard "user:" = true /\ Text.no_nul "user:" = true
  /\ like_pattern_fits (list_pattern o) = true
  /\ starts_with_nocase "user:" "user:2" = true
  /\ In ("user:2", 500)
       (fst (list o None 200
               (step 100 (Put "user:2" (VString "b") (Some (inject_Z 500))) s))).
Proof.
  intros s o.
  assert (unique_keys (sql s)) as Hu.
  { unfold unique_keys; cbn. repeat constructor; cbn; intuition discriminate. }
  assert (List.length (sql s) < 1000)%nat as Hlen by (cbn; lia).
  split; [reflexivity|]. split; [exact Hu|]. split; [exact Hlen|].
  split; [reflexivity|]. split; [reflexivity|]. split; [reflexivity|].
  split; [reflexivity|].
  apply (put_then_list_shows_key "user:2" (VString "b") (Some (inject_Z 500)) o
           100 200 s eq_refl Hu Hlen); try reflexivity; right; cbn; lia.
Defined.

End ListBehaviour.

(** ** The clock *)

Section ClockBehaviour.

Lemma now_quot (ms : Z) : Clock.now ms = Z.quot ms 1000.
Proof. unfold Clock.now, Math_trunc. cbn. now rewrite Z.mul_1_r. Qed.

(** X16. [DOKVS.now()] counts whole seconds: for a non-negative number of
    milliseconds it is the number of seconds that have fully passed, and
    it never goes back while [Date.now()] does not. *)
Theorem now_counts_whole_seconds :
  (forall ms, 0 <= ms ->
     1000 * Clock.now ms <= ms < 1000 * Clock.now ms + 1000)
  /\ (forall ms1 ms2, ms1 <= ms2 -> Clock.now ms1 <= Clock.now ms2).
Proof.
  split.
  - intros ms Hms. rewrite now_quot, Z.quot_div_nonneg by lia.
    pose proof (Z.mul_div_le ms 1000 ltac:(lia)).
    pose proof (Z.mul_succ_div_gt ms 1000 ltac:(lia)). lia.
  - intros ms1 ms2 Hle. rewrite !now_quot. apply Z.quot_le_mono; lia.
Qed.

Lemma now_counts_whole_seconds_witness :
  0 <= 1760000000999 /\ Clock.now 1760000000999 = 1760000000
  /\ Clock.now (-1) <= Clock.now 0.
Proof.
  destruct now_counts_whole_seconds as (Hsec & Hmono).
  split; [lia|]. split; [reflexivity|]. apply Hmono. lia.
Defined.

End ClockBehaviour.

(** ** The realtime store in front of [DOKVS] *)

Section RealtimeBehaviour.
Import Codec Sql DOKVS.



Lemma Math_trunc_ge_1 (q : Q) : (1 <= q)%Q -> 1 <= Math_trunc q.
Proof.
  intros H.
  assert (0 <= q)%Q as H0 by (eapply Qle_trans; [|exact H]; discriminate).
  rewrite (Math_trunc_floor _ H0). unfold Qle in H. cbn in H.
  apply Z.div_le_lower_bound; lia.
Qed.

Lemma Math_trunc_lt (q : Q) (z : Z) :
  (0 <= q)%Q -> (q < inject_Z z)%Q -> Math_trunc q < z.
Proof.
  intros Hq Hlt. rewrite Zlt_Qlt.
  eapply Qle_lt_trans; [apply Math_trunc_le, Hq|exact Hlt].
Qed.







End RealtimeBehaviour.

(** ** Outcomes of the bootstrap *)

Section BootstrapBehaviour.
Import Bootstrap.

(** X19. The bootstrap succeeds exactly when the flag is set or the index
    does not exist yet.  With the flag unset and the index there, it fails
    on [create index] with the error of the engine.  With the flag unset
    and no index, it ends with the flag set and the table and the index in
    place.  A flag that is set is trusted: nothing is created then, even
    when the table is missing. *)
Theorem bootstrap_outcomes (c : ctx) :
  ((exists c', construct c = Ret c') <-> isTable c = true \/ has_index c = false)
  /\ (isTable c = false -> has_index c = true ->
        construct c = Throw (SqlError "index expindex already exists"))
  /\ (isTable c = false -> has_index c = false ->
        construct c = Ret (mkCtx (Some true) true true))
  /\ (isTable c = true -> has_table c = false ->
        construct c = Ret c /\ initialize c = []).
Proof.
  destruct c as [[[|]|] tb ix]; unfold construct, initialize, isTable; cbn;
    destruct ix; cbn; repeat split; intros; try discriminate; eauto;
    try (destruct H as [c' H]; discriminate);
    try (destruct H; discriminate).
Qed.

Lemma bootstrap_outcomes_witness :
  isTable (mkCtx None true true) = false
  /\ has_index (mkCtx None true true) = true
  /\ construct (mkCtx None true true)
     = Throw (SqlError "index expindex already exists")
  /\ construct (mkCtx (Some true) false false) = Ret (mkCtx (Some true) false false).
Proof.
  destruct (bootstrap_outcomes (mkCtx None true true)) as (_ & Hfail & _).
  destruct (bootstrap_outcomes (mkCtx (Some true) false false))
    as (_ & _ & _ & Htrust).
  split; [reflexivity|]. split; [reflexivity|]. split.
  - apply Hfail; reflexivity.
  - apply Htrust; reflexivity.
Defined.

End BootstrapBehaviour.

(** ** The binding getters *)

Section BindingBehaviour.
Import Bindings.

Lemma guards_reject_primitives (rt : runtime) (v : value) :
  is_primitive v = true ->
  isKVNamespace v = false
  /\ isDurableObjectNamespace rt v = false
  /\ isD1Database rt v = false
  /\ isHyperdrive v = false
  /\ isR2Bucket rt v = false.
Proof.
  destruct rt as [d1 d2 d3].
  destruct v as [| |b|q| |s|c cls props]; intros H; try discriminate H;
    unfold isKVNamespace, isDurableObjectNamespace, isD1Database, isHyperdrive,
      isR2Bucket; cbn;
    repeat match goal with
           | |- context [if ?b then _ else _] => destruct b; cbn
           | |- context [negb ?b] => destruct b; cbn
           end;
    repeat split; reflexivity.
Qed.

(** X20. No getter builds a store on a binding that is missing from the
    environment, or is [undefined], [null], a boolean, a number or a
    string: each getter then throws its own error, which names the
    binding, whichever platform classes the runtime defines. *)
Theorem getters_throw_on_primitive_binding (rt : runtime) (name : string)
  (env : Datatypes.list (string * value)) :
  is_primitive (getEnvProp env name) = true ->
  getKVSEventual name env = ThrownError (not_binding_as name "KV Namespace")
  /\ getKVSRealtime rt name env
     = ThrownError (not_binding_as name "Durable Objects")
  /\ getRDBEventual rt name env
     = ThrownError (not_binding_as name "D1 Database")
  /\ getRDBConnectionString name env
     = ThrownError (not_binding_as name "Hyperdrive")
  /\ getBOS rt name env = ThrownError (not_binding_as name "R2 Bucket").
Proof.
  intros H.
  destruct (guards_reject_primitives rt _ H) as (H1 & H2 & H3 & H4 & H5).
  unfold getKVSEventual, getKVSRealtime, getRDBEventual, getRDBConnectionString,
    getBOS.
  now rewrite H1, H2, H3, H4, H5.
Qed.

Lemma getters_throw_on_primitive_binding_witness :
  let env := [("MY_KV", Str "not a namespace")] in
  is_primitive (getEnvProp env "MISSING") = true
  /\ is_primitive (getEnvProp env "MY_KV") = true
  /\ getKVSEventual "MY_KV" env
     = ThrownError (not_binding_as "MY_KV" "KV Namespace")
  /\ getKVSRealtime (mkRuntime false false false) "MISSING" env
     = ThrownError (not_binding_as "MISSING" "Durable Objects").
Proof.
  intros env.
  destruct (getters_throw_on_primitive_binding (mkRuntime false false false)
              "MY_KV" env eq_refl) as (Hkv & _).
  destruct (getters_throw_on_primitive_binding (mkRuntime false false false)
              "MISSING" env eq_refl) as (_ & Hdo & _).
  split; [reflexivity|]. split; [reflexivity|]. split; [exact Hkv|exact Hdo].
Defined.

(** X21. [getRDBConnectionString] checks only that the binding is an
    object, not a function, on which the seven properties of a Hyperdrive
    are found: it then returns what is under [connectionString], whatever
    that is, a string or not. *)
Theorem connection_string_is_returned_unchecked (name : string)
  (env : Datatypes.list (string * value)) (cls : Datatypes.list string)
  (props : Datatypes.list (string * value)) :
  getEnvProp env name = Object false cls props ->
  (forall n, In n ["connect"; "connectionString"; "host"; "port"; "user";
                   "password"; "database"] -> lookup n props <> None) ->
  getRDBConnectionString name env
  = Returned (nullish (lookup "connectionString" props) Undefined).
Proof.
  intros Hobj Hall. unfold getRDBConnectionString. rewrite Hobj.
  assert (isHyperdrive (Object false cls props) = true) as ->; [|reflexivity].
  unfold isHyperdrive. cbn [falsy is_type typeof orb negb].
  apply forallb_forall. intros n Hn. unfold has_prop.
  specialize (Hall n Hn). now destruct (lookup n props).
Qed.

Lemma connection_string_is_returned_unchecked_witness :
  let props := [("connect", Undefined); ("connectionString", Number 5);
                ("host", Null); ("port", Null); ("user", Null);
                ("password", Null); ("database", Null)] in
  let env := [("HD", Object false [] props)] in
  getEnvProp env "HD" = Object false [] props
  /\ getRDBConnectionString "HD" env = Returned (Number 5).
Proof.
  intros props env. split; [reflexivity|].
  rewrite (connection_string_is_returned_unchecked "HD" env [] props eq_refl).
  - reflexivity.
  - intros n Hn. cbn in Hn.
    repeat (destruct Hn as [<-|Hn]; [discriminate|]). destruct Hn.
Defined.

End BindingBehaviour.
